(** * computationaltears: the tear emitter and the collage layer of sketch.js

    The repository holds two variants of one p5.js sketch.  Variant [A] is the
    first program of [src/sketch.js] (lifespan 300, hue tint, spawn test on
    [emissionRate]); variant [B] is the second (lifespan 150, plain tint,
    spawn test on the literal 10, frame-rate throttle).  Everything the two
    programs share verbatim is defined once; the places where they differ are
    a [match] on the variant.

    Numbers.  Counters ([life], [lifespan], [opacity], [frameCount],
    [emissionRate]) only ever hold integers and are [Z].  Coordinates,
    velocities, sizes, times and the results of [map] are JavaScript doubles;
    they are modelled by exact rationals [Q], so rounding is left out: a
    sample just below 1 can round [random(lo, hi)] up to [hi] itself, the
    floor of a rounded product can pick a neighbouring element of an array,
    and a hue can differ from the exact one in its last digits.  What is
    stated of such numbers below is stated so that rounding does not touch
    it (closed ranges, membership), or says that it is about exact
    arithmetic.  A value that may be [NaN] has type [jsnum]. *)

From Stdlib Require Import ZArith QArith Qround String Lia Lqa.
From stdpp Require Import base option list gmap sorting.

Local Open Scope Z_scope.

(** ** JavaScript numbers *)

Inductive jsnum : Type :=
  | Num (q : Q)
  | NaN.

(** Truncation towards zero, the rounding of the JavaScript remainder. *)
Definition Qtrunc (q : Q) : Z :=
  if Qle_bool 0 q then Qfloor q else Qceiling q.

(** [a % b] on doubles: the remainder has the sign of the dividend, and a zero
    divisor gives [NaN]. *)
Definition js_rem (a b : Q) : jsnum :=
  if Qeq_bool b 0 then NaN
  else Num (a - b * inject_Z (Qtrunc (a / b)))%Q.

Definition js_rem_num (a : jsnum) (b : Q) : jsnum :=
  match a with
  | Num q => js_rem q b
  | NaN => NaN
  end.

(** [a % b] on integer-valued numbers. *)
Definition js_rem_int (a b : Z) : option Z :=
  if b =? 0 then None else Some (Z.rem a b).

(** [a % b === 0] *)
Definition rem_is_zero (a b : Z) : bool :=
  match js_rem_int a b with
  | Some r => r =? 0
  | None => false
  end.

(** The numeric value of a property that holds a number or is missing:
    [undefined] converts to [NaN]. *)
Definition to_number (p : option Q) : jsnum :=
  match p with
  | Some q => Num q
  | None => NaN
  end.

Definition js_add (a b : jsnum) : jsnum :=
  match a, b with
  | Num p, Num q => Num (p + q)%Q
  | _, _ => NaN
  end.

(** ** The p5.js runtime *)

(** An image object as [loadImage] returns it.  The sketch reads [width],
    [height] and [randomOffset]; p5.Image has no property [randomOffset], so
    the field is [None] unless something assigns it. *)
Record Image : Type := mkImage {
  file : string;
  width : Q;
  height : Q;
  randomOffset : option Q
}.

Definition loadImage (disk : string -> Q * Q) (name : string) : Image :=
  {| file := name; width := fst (disk name); height := snd (disk name);
     randomOffset := None |}.

(** A sample of the runtime's generator, a number in [0, 1). *)
Record Unit01 : Type := mkUnit01 {
  u_val : Q;
  u_ok : Qle_bool 0 u_val && negb (Qle_bool 1 u_val) = true
}.

(** [random(lo, hi)]: the two bounds are swapped first when [lo > hi]. *)
Definition random_range (u : Unit01) (lo hi : Q) : Q :=
  if Qle_bool lo hi
  then (u_val u * (hi - lo) + lo)%Q
  else (u_val u * (lo - hi) + hi)%Q.

(** [random(arr)] is [arr[floor(u * arr.length)]]; [None] is [undefined]. *)
Definition random_choice {A : Type} (u : Unit01) (arr : list A) : option A :=
  arr !! Z.to_nat (Qfloor (u_val u * inject_Z (Z.of_nat (length arr)))).

(** [map(n, start1, stop1, start2, stop2)], without clamping. *)
Definition map_range (n start1 stop1 start2 stop2 : Q) : Q :=
  ((n - start1) / (stop1 - start1) * (stop2 - start2) + start2)%Q.

(** What a callback can read from the runtime while it runs.  [rnd k] is the
    result of the k-th call of [random] inside the callback. *)
Record Env : Type := mkEnv {
  frameCount : Z;
  frameRate : Q;
  millis : Q;
  mouseX : Q;
  mouseY : Q;
  key : string;
  canvas_width : Q;
  canvas_height : Q;
  rnd : nat -> Unit01
}.

(** Calls on the drawing surface, in the order they are made. *)
Inductive CanvasOp : Type :=
  | Background (gray : Q)
  | Push
  | Pop
  | Translate (x y : Q)
  | Rotate (angle : Q)
  | Tint4 (v1 : jsnum) (v2 v3 alpha : Q)
  | Tint2 (gray alpha : Q)
  | DrawImage (img : Image) (x y w h : Q).

Inductive Variant : Type := A | B.

(** ** class Tear *)

Module Tear.

Record t : Type := mk {
  x : Q;
  y : Q;
  size : Q;
  lifespan : Z;
  life : Z;
  vx : Q;
  vy : Q;
  ay : Q;
  img : option Image
}.

(** [activeSet] is [None] when the caller passes [undefined]; the image is
    then no image object. *)
Definition constructor (v : Variant) (env : Env) (x0 y0 : Q)
    (activeSet : option (list Image)) : t :=
  let lifespan0 := match v with A => 5 * 60 | B => 150 (* 2.5 * 60 *) end in
  {| x := x0;
     y := y0;
     size := random_range (rnd env 0%nat) 160 260;
     lifespan := lifespan0;
     life := lifespan0;
     vx := random_range (rnd env 1%nat) (-1.5) 1.5;
     vy := random_range (rnd env 2%nat) (-2) 0;
     ay := 0.5;
     img := activeSet ≫= random_choice (rnd env 3%nat) |}.

Definition update (p : t) : t :=
  let vy1 := (vy p + ay p)%Q in
  {| x := (x p + vx p)%Q;
     y := (y p + vy1)%Q;
     size := size p;
     lifespan := lifespan p;
     life := life p - 1;
     vx := vx p;
     vy := vy1;
     ay := ay p;
     img := img p |}.

Definition alpha (p : t) : Q :=
  map_range (inject_Z (life p)) 0 (inject_Z (lifespan p)) 0 255.

Definition scaleFactor (p : t) : Q :=
  map_range (inject_Z (life p)) 0 (inject_Z (lifespan p)) 0.1 1.

(** Variant A only: [(currentHue + this.img.randomOffset) % 360]. *)
Definition hueValue (currentHue : jsnum) (i : Image) : jsnum :=
  js_rem_num (js_add currentHue (to_number (randomOffset i))) 360.

(** [None]: the tear holds no image object and the call raises a
    TypeError.  Variant B's [display] takes no argument; [currentHue] is
    ignored there. *)
Definition display (v : Variant) (currentHue : jsnum) (p : t)
    : option (list CanvasOp) :=
  match img p with
  | None => None
  | Some i =>
      let tint :=
        match v with
        | A => Tint4 (hueValue currentHue i) 80 50 (alpha p)
        | B => Tint2 255 (alpha p)
        end in
      Some [Push; Translate (x p) (y p); tint;
            DrawImage i 0 0 (size p * scaleFactor p) (size p * scaleFactor p);
            Pop]
  end.

End Tear.

(** ** class CollageImage *)

Module CollageImage.

Record t : Type := mk {
  img : option Image;
  opacity : Z;
  scale : Q;
  x : Q;
  y : Q;
  rotation : Q
}.

(** The constructor draws [scale], [x] and [y] after the caller has drawn
    the image, hence samples 1 to 3. *)
Definition constructor (env : Env) (i : option Image) : t :=
  {| img := i;
     opacity := 0;
     scale := random_range (rnd env 1%nat) 0.6 1.0;
     x := random_range (rnd env 2%nat) (canvas_width env * 0.1) (canvas_width env * 0.9);
     y := random_range (rnd env 3%nat) (canvas_height env * 0.1) (canvas_height env * 0.9);
     rotation := 0 |}.

Definition update (c : t) : t :=
  if opacity c <? 255
  then {| img := img c; opacity := opacity c + 5; scale := scale c;
          x := x c; y := y c; rotation := rotation c |}
  else c.

Definition display (c : t) : option (list CanvasOp) :=
  match img c with
  | None => None
  | Some i =>
      Some [Push; Translate (x c) (y c); Rotate (rotation c);
            Tint2 255 (inject_Z (opacity c));
            DrawImage i 0 0 (width i * scale c) (height i * scale c);
            Pop]
  end.

End CollageImage.

(** ** Global state *)

(** [activeTearSet] refers to one of the two arrays, which are compared by
    identity and never written after [preload]. *)
Inductive SetRef : Type := SetA | SetB.

Global Instance SetRef_eq_dec : EqDecision SetRef.
Proof. solve_decision. Defined.

(** The globals of the sketch, followed by the part of the browser they
    act on: the set of live interval timers and the next handle that
    [setInterval] gives out. *)
Record State : Type := mkState {
  tears : list Tear.t;
  collageImages : list CollageImage.t;
  isCrying : bool;
  startTime : Q;
  emissionRate : Z;
  tearImagesSetA : list Image;
  tearImagesSetB : list Image;
  slideshowImages : list Image;
  activeTearSet : option SetRef;
  slideshowInterval : option nat;
  timers : gset nat;
  next_timer : nat
}.

Definition with_tears (ts : list Tear.t) (s : State) : State :=
  mkState ts (collageImages s) (isCrying s) (startTime s) (emissionRate s)
    (tearImagesSetA s) (tearImagesSetB s) (slideshowImages s)
    (activeTearSet s) (slideshowInterval s) (timers s) (next_timer s).

Definition with_collageImages (cs : list CollageImage.t) (s : State) : State :=
  mkState (tears s) cs (isCrying s) (startTime s) (emissionRate s)
    (tearImagesSetA s) (tearImagesSetB s) (slideshowImages s)
    (activeTearSet s) (slideshowInterval s) (timers s) (next_timer s).

Definition with_isCrying (b : bool) (s : State) : State :=
  mkState (tears s) (collageImages s) b (startTime s) (emissionRate s)
    (tearImagesSetA s) (tearImagesSetB s) (slideshowImages s)
    (activeTearSet s) (slideshowInterval s) (timers s) (next_timer s).

Definition with_startTime (q : Q) (s : State) : State :=
  mkState (tears s) (collageImages s) (isCrying s) q (emissionRate s)
    (tearImagesSetA s) (tearImagesSetB s) (slideshowImages s)
    (activeTearSet s) (slideshowInterval s) (timers s) (next_timer s).

Definition with_emissionRate (r : Z) (s : State) : State :=
  mkState (tears s) (collageImages s) (isCrying s) (startTime s) r
    (tearImagesSetA s) (tearImagesSetB s) (slideshowImages s)
    (activeTearSet s) (slideshowInterval s) (timers s) (next_timer s).

Definition with_images (a b sl : list Image) (s : State) : State :=
  mkState (tears s) (collageImages s) (isCrying s) (startTime s)
    (emissionRate s) a b sl
    (activeTearSet s) (slideshowInterval s) (timers s) (next_timer s).

Definition with_activeTearSet (r : option SetRef) (s : State) : State :=
  mkState (tears s) (collageImages s) (isCrying s) (startTime s)
    (emissionRate s) (tearImagesSetA s) (tearImagesSetB s)
    (slideshowImages s) r (slideshowInterval s) (timers s) (next_timer s).

Definition with_slideshowInterval (h : option nat) (s : State) : State :=
  mkState (tears s) (collageImages s) (isCrying s) (startTime s)
    (emissionRate s) (tearImagesSetA s) (tearImagesSetB s)
    (slideshowImages s) (activeTearSet s) h (timers s) (next_timer s).

Definition with_timers (ts : gset nat) (n : nat) (s : State) : State :=
  mkState (tears s) (collageImages s) (isCrying s) (startTime s)
    (emissionRate s) (tearImagesSetA s) (tearImagesSetB s)
    (slideshowImages s) (activeTearSet s) (slideshowInterval s) ts n.

(** The top-level [let] declarations.  Handles of timers are positive. *)
Definition globals : State :=
  {| tears := [];
     collageImages := [];
     isCrying := false;
     startTime := 0;
     emissionRate := 3;
     tearImagesSetA := [];
     tearImagesSetB := [];
     slideshowImages := [];
     activeTearSet := None;
     slideshowInterval := None;
     timers := ∅;
     next_timer := 1 |}.

Definition TEAR_FILENAMES_A (v : Variant) : list string :=
  ["tear1.png"; "tear2.png"; "tear3.png"]%string.

Definition TEAR_FILENAMES_B (v : Variant) : list string :=
  match v with
  | A => ["tear6.png"; "tear7.png"; "tear8.png"]
  | B => ["tear4.png"; "tear5.png"; "tear6.png"]
  end%string.

Definition SLIDESHOW_FILENAMES (v : Variant) : list string :=
  match v with
  | A => ["slide1.jpg"]
  | B => ["slide1.jpg"; "slide2.jpg"; "slide3.jpg";
          "slide4.jpg"; "slide5.jpg"; "slide6.png"]
  end%string.

(** [setInterval(createCollageImage, SLIDE_DURATION)]: the only callback and
    the only period the sketch registers, so a timer is its handle. *)
Definition setInterval (s : State) : nat * State :=
  (next_timer s,
   with_timers ({[next_timer s]} ∪ timers s) (S (next_timer s)) s).

Definition clearInterval (h : nat) (s : State) : State :=
  with_timers (timers s ∖ {[h]}) (next_timer s) s.

(** ** The functions of the sketch *)

(** The three loops push onto arrays that are empty at start-up. *)
Definition preload (v : Variant) (disk : string -> Q * Q) (s : State) : State :=
  let s1 :=
    with_images
      (tearImagesSetA s ++ (loadImage disk <$> TEAR_FILENAMES_A v))
      (tearImagesSetB s ++ (loadImage disk <$> TEAR_FILENAMES_B v))
      (slideshowImages s ++ (loadImage disk <$> SLIDESHOW_FILENAMES v)) s in
  with_activeTearSet (Some SetA) s1.

(** The array [activeTearSet] refers to; [None] while it is [undefined]. *)
Definition activeSet (s : State) : option (list Image) :=
  match activeTearSet s with
  | Some SetA => Some (tearImagesSetA s)
  | Some SetB => Some (tearImagesSetB s)
  | None => None
  end.

(** Variant A only. *)
Definition getDurationBasedHue (env : Env) (s : State) : jsnum :=
  if negb (isCrying s) then Num 0
  else
    let duration := ((millis env - startTime s) / 1000)%Q in
    let hueShiftSpeed := 30%Q in
    js_rem (duration * hueShiftSpeed) 360.

Definition toggleTearSet (s : State) : State :=
  with_activeTearSet
    (if decide (activeTearSet s = Some SetA) then Some SetB else Some SetA) s.

Definition createCollageImage (env : Env) (s : State) : State :=
  let img := random_choice (rnd env 0%nat) (slideshowImages s) in
  with_collageImages (collageImages s ++ [CollageImage.constructor env img]) s.

Definition startSlideshow (env : Env) (s : State) : State :=
  match slideshowInterval s with
  | None =>
      let s1 := createCollageImage env s in
      let '(h, s2) := setInterval s1 in
      with_slideshowInterval (Some h) s2
  | Some _ => s
  end.

Definition stopSlideshow (s : State) : State :=
  match slideshowInterval s with
  | Some h =>
      let s1 := clearInterval h s in
      let s2 := with_slideshowInterval None s1 in
      with_collageImages [] s2
  | None => s
  end.

Definition startCrying (env : Env) (s : State) : State :=
  if negb (isCrying s)
  then with_startTime (millis env) (with_isCrying true s)
  else s.

Definition stopCrying (s : State) : State :=
  if isCrying s then with_isCrying false s else s.

(** [resizeCanvas] touches the surface only. *)
Definition windowResized (s : State) : State := s.

Definition mousePressed (env : Env) (s : State) : State := startCrying env s.
Definition mouseReleased (s : State) : State := stopCrying s.
Definition touchStarted (env : Env) (s : State) : State := startCrying env s.
Definition touchEnded (s : State) : State := stopCrying s.

Definition keyPressed (env : Env) (s : State) : State :=
  if String.eqb (key env) " " && negb (isCrying s) then startCrying env s
  else if String.eqb (key env) "s" then
    match slideshowInterval s with
    | None => startSlideshow env s
    | Some _ => stopSlideshow s
    end
  else if String.eqb (key env) "t" then toggleTearSet s
  else s.

Definition keyReleased (env : Env) (s : State) : State :=
  if String.eqb (key env) " " && isCrying s then stopCrying s else s.

(** *** draw *)

(** Step 2 of [draw].  Variant A tests [frameCount % emissionRate], variant B
    tests [frameCount % 10]. *)
Definition emit (v : Variant) (env : Env) (s : State) : State :=
  if isCrying s then
    if rem_is_zero (frameCount env)
         (match v with A => emissionRate s | B => 10 end)
    then with_tears
           (tears s ++
            [Tear.constructor v env (mouseX env) (mouseY env) (activeSet s)]) s
    else s
  else s.

(** Step 3: [for (let img of collageImages) { img.update(); img.display(); }] *)
Fixpoint collage_loop (cs : list CollageImage.t)
    : option (list CollageImage.t * list CanvasOp) :=
  match cs with
  | [] => Some ([], [])
  | c :: rest =>
      let c1 := CollageImage.update c in
      ops ← CollageImage.display c1;
      '(rest1, ops1) ← collage_loop rest;
      Some (c1 :: rest1, ops ++ ops1)
  end.

(** Step 4: [for (let i = tears.length - 1; i >= 0; i--)].  The first
    argument is [i + 1].  The body updates the object in slot [i], draws it
    and splices the slot out when the tear is dead.  [None]: [tears[i]] is
    [undefined] or has no image, and the body raises. *)
Fixpoint tears_loop (v : Variant) (currentHue : jsnum) (n : nat)
    (ts : list Tear.t) (out : list CanvasOp)
    : option (list Tear.t * list CanvasOp) :=
  match n with
  | O => Some (ts, out)
  | S i =>
      tear ← ts !! i;
      let tear1 := Tear.update tear in
      let ts1 := <[i := tear1]> ts in
      ops ← Tear.display v currentHue tear1;
      if Tear.life tear1 <=? 0
      then tears_loop v currentHue i (delete i ts1) (out ++ ops)
      else tears_loop v currentHue i ts1 (out ++ ops)
  end.

(** The end of variant B's [draw]. *)
Definition throttle (env : Env) (s : State) : State :=
  if negb (Qle_bool 30 (frameRate env))
  then with_emissionRate 20 s
  else with_emissionRate 3 s.

(** One frame: the state after it and the calls made on the surface.  [None]
    is an uncaught exception.  Variant B computes no hue and its [display]
    reads none; [NaN] stands in for the missing argument. *)
Definition draw (v : Variant) (env : Env) (s : State)
    : option (State * list CanvasOp) :=
  let s1 := emit v env s in
  '(cs, ops1) ← collage_loop (collageImages s1);
  let s2 := with_collageImages cs s1 in
  let currentHue :=
    match v with A => getDurationBasedHue env s2 | B => NaN end in
  '(ts, ops2) ← tears_loop v currentHue (length (tears s2)) (tears s2) [];
  let s3 := with_tears ts s2 in
  let s4 := match v with A => s3 | B => throttle env s3 end in
  Some (s4, [Background 255] ++ ops1 ++ ops2).

(** ** Callbacks as events *)

Inductive Event : Type :=
  | Frame
  | MousePressed
  | MouseReleased
  | TouchStarted
  | TouchEnded
  | KeyPressed
  | KeyReleased
  | Interval (h : nat)
  | WindowResized.

(** The state after the runtime has delivered one event.  [None]: the
    callback raised, or the event is [Interval h] and no timer [h] is live,
    so the runtime makes no call. *)
Definition handle (v : Variant) (env : Env) (e : Event) (s : State)
    : option State :=
  match e with
  | Frame => fst <$> draw v env s
  | MousePressed => Some (mousePressed env s)
  | MouseReleased => Some (mouseReleased s)
  | TouchStarted => Some (touchStarted env s)
  | TouchEnded => Some (touchEnded s)
  | KeyPressed => Some (keyPressed env s)
  | KeyReleased => Some (keyReleased env s)
  | Interval h =>
      if decide (h ∈ timers s) then Some (createCollageImage env s) else None
  | WindowResized => Some (windowResized s)
  end.

(** The states of a run: [preload] on the initial globals, then events. *)
Inductive reachable (v : Variant) : State -> Prop :=
  | reach_preload (disk : string -> Q * Q) :
      reachable v (preload v disk globals)
  | reach_event (s s1 : State) (env : Env) (e : Event) :
      reachable v s -> handle v env e s = Some s1 -> reachable v s1.

(** A run as a computation: [preload], then the listed events in order. *)
Fixpoint run_from (v : Variant) (evs : list (Env * Event)) (s : State)
    : option State :=
  match evs with
  | [] => Some s
  | (env, e) :: rest => s1 ← handle v env e s; run_from v rest s1
  end.

Definition run (v : Variant) (disk : string -> Q * Q)
    (evs : list (Env * Event)) : option State :=
  run_from v evs (preload v disk globals).

(** ** Well-formed states *)

Definition LIFESPAN (v : Variant) : Z :=
  match v with A => 300 | B => 150 end.

Definition no_offset (i : Image) : Prop := randomOffset i = None.

Definition tear_ok (v : Variant) (p : Tear.t) : Prop :=
  (∃ i, Tear.img p = Some i ∧ no_offset i) ∧
  0 < Tear.life p ≤ Tear.lifespan p ∧
  Tear.lifespan p = LIFESPAN v.

Definition collage_ok (c : CollageImage.t) : Prop :=
  is_Some (CollageImage.img c) ∧
  0 ≤ CollageImage.opacity c ≤ 255 ∧
  (5 | CollageImage.opacity c).

Record wf (v : Variant) (s : State) : Prop := mk_wf {
  wf_active : is_Some (activeTearSet s);
  wf_setA : tearImagesSetA s ≠ [];
  wf_setB : tearImagesSetB s ≠ [];
  wf_offsets : Forall no_offset (tearImagesSetA s ++ tearImagesSetB s);
  wf_slides : slideshowImages s ≠ [];
  wf_tears : Forall (tear_ok v) (tears s);
  wf_collage : Forall collage_ok (collageImages s);
  wf_timers :
    timers s = match slideshowInterval s with
               | Some h => {[h]}
               | None => ∅
               end;
  wf_rate :
    match v with
    | A => emissionRate s = 3
    | B => emissionRate s = 3 ∨ emissionRate s = 20
    end
}.

(** The tears that survive a frame, and a tear [k] frames older. *)
Definition alive (p : Tear.t) : Prop := 0 < Tear.life p.

Global Instance alive_dec (p : Tear.t) : Decision (alive p).
Proof. unfold alive. apply _. Defined.

Definition aged (k : nat) (p : Tear.t) : Tear.t := Nat.iter k Tear.update p.

(** [k] idle frames of the tear loop on its own, with the calls of each. *)
Fixpoint tear_frames (v : Variant) (hue : jsnum) (k : nat) (ts : list Tear.t)
    : option (list Tear.t * list (list CanvasOp)) :=
  match k with
  | O => Some (ts, [])
  | S k1 =>
      '(ts1, ops) ← tears_loop v hue (length ts) ts [];
      '(ts2, log) ← tear_frames v hue k1 ts1;
      Some (ts2, ops :: log)
  end.

(** The hues of the [tint] calls of variant A, in order. *)
Definition tint_hues (ops : list CanvasOp) : list jsnum :=
  omap (λ op, match op with Tint4 h _ _ _ => Some h | _ => None end) ops.

(** ** Sample inputs *)

Definition half : Unit01 := mkUnit01 (1 # 2) eq_refl.

Definition disk0 (name : string) : Q * Q := (640%Q, 480%Q).

(** The runtime at frame [frame], [ms] milliseconds in, running at [rate]
    frames per second, the pointer at (40, 70), the last key being [k]. *)
Definition env_at (frame : Z) (rate ms : Q) (k : string) : Env :=
  {| frameCount := frame; frameRate := rate; millis := ms;
     mouseX := 40; mouseY := 70; key := k;
     canvas_width := 800; canvas_height := 600;
     rnd := λ _, half |}.

(** The pointer goes down right after start-up. *)
Definition crying (v : Variant) : State :=
  mousePressed (env_at 0 60 0 " ") (preload v disk0 globals).

(** The pointer goes down, then one frame runs at 20 frames per second. *)
Definition lagging_events : list (Env * Event) :=
  [(env_at 0 60 0 " ", MousePressed); (env_at 1 20 50 " ", Frame)].

(** The collage is switched on, a frame runs, the timer fires and two more
    frames run: two items, of opacity 15 and 10. *)
Definition collage_events : list (Env * Event) :=
  [(env_at 0 60 0 "s", KeyPressed); (env_at 1 60 16 "s", Frame);
   (env_at 1 60 3000 "s", Interval 1%nat); (env_at 2 60 3016 "s", Frame);
   (env_at 3 60 3032 "s", Frame)].

Definition collage_state : State :=
  default globals (run A disk0 collage_events).

(** The pointer goes down and frame 3 runs: one tear, of life 299. *)
Definition tear_events : list (Env * Event) :=
  [(env_at 0 60 0 " ", MousePressed); (env_at 3 60 50 " ", Frame)].

Definition tear_state : State :=
  default globals (run A disk0 tear_events).

(** The pointer is released after the frame that created one tear. *)
Definition released_events : list (Env * Event) :=
  tear_events ++ [(env_at 3 60 60 " ", MouseReleased)].

Definition released_state : State :=
  default globals (run A disk0 released_events).

(** ** Notions for the properties of whole runs *)

(** [p] has less life left than [q]. *)
Definition older (p q : Tear.t) : Prop := Tear.life p < Tear.life q.

Definition from_sets (s : State) (p : Tear.t) : Prop :=
  ∃ i, Tear.img p = Some i ∧ (i ∈ tearImagesSetA s ∨ i ∈ tearImagesSetB s).

Definition from_slides (s : State) (c : CollageImage.t) : Prop :=
  ∃ i, CollageImage.img c = Some i ∧ i ∈ slideshowImages s.

(** What holds of a state of the run started on [disk], beyond [wf]. *)
Record inv (v : Variant) (disk : string -> Q * Q) (s : State) : Prop := mk_inv {
  inv_wf : wf v s;
  inv_setA : tearImagesSetA s = loadImage disk <$> TEAR_FILENAMES_A v;
  inv_setB : tearImagesSetB s = loadImage disk <$> TEAR_FILENAMES_B v;
  inv_slides : slideshowImages s = loadImage disk <$> SLIDESHOW_FILENAMES v;
  inv_tears_img : Forall (from_sets s) (tears s);
  inv_collage_img : Forall (from_slides s) (collageImages s);
  inv_sorted : StronglySorted older (tears s);
  inv_young : Forall (λ p, Tear.life p < LIFESPAN v) (tears s)
}.

(** A collage item [k] frames later. *)
Definition faded (k : nat) (c : CollageImage.t) : CollageImage.t :=
  Nat.iter k CollageImage.update c.

(** The depth of the surface's state stack after [ops], starting at depth
    [d]; [None] when a [pop] finds the stack empty. *)
Fixpoint stack_depth (d : nat) (ops : list CanvasOp) : option nat :=
  match ops with
  | [] => Some d
  | Push :: rest => stack_depth (S d) rest
  | Pop :: rest =>
      match d with
      | O => None
      | S d1 => stack_depth d1 rest
      end
  | _ :: rest => stack_depth d rest
  end.

(** The number of tears step 2 of [draw] appends. *)
Definition spawned (v : Variant) (env : Env) (s : State) : nat :=
  (length (tears (emit v env s)) - length (tears s))%nat.

Definition only_frames (evs : list (Env * Event)) : Prop :=
  Forall (λ ev, ev.2 = Frame) evs.

(** [env] with another frame counter. *)
Definition at_frame (f : Z) (env : Env) : Env :=
  {| frameCount := f; frameRate := frameRate env; millis := millis env;
     mouseX := mouseX env; mouseY := mouseY env; key := key env;
     canvas_width := canvas_width env; canvas_height := canvas_height env;
     rnd := rnd env |}.


(** ** Sampling *)

Lemma unit01_bounds (u : Unit01) : (0 <= u_val u)%Q ∧ (u_val u < 1)%Q.
Proof.
  destruct u as [q Hq]; simpl.
  apply andb_prop in Hq as [H0 H1].
  split; [by apply Qle_bool_imp_le|].
  apply Qnot_le_lt. intros Hle.
  apply Qle_bool_iff in Hle. rewrite Hle in H1. discriminate.
Qed.

Lemma random_index_lt (u : Unit01) (n : nat) :
  (0 < n)%nat →
  (Z.to_nat (Qfloor (u_val u * inject_Z (Z.of_nat n))) < n)%nat.
Proof.
  intros Hn. destruct (unit01_bounds u) as [H0 H1].
  set (q := (u_val u * inject_Z (Z.of_nat n))%Q).
  assert (Hn' : (0 < inject_Z (Z.of_nat n))%Q).
  { change 0%Q with (inject_Z 0). rewrite <- Zlt_Qlt. lia. }
  assert (Hlo : 0 ≤ Qfloor q).
  { change 0 with (Qfloor 0). apply Qfloor_resp_le.
    unfold q. apply Qmult_le_0_compat; [done|]. by apply Qlt_le_weak. }
  assert (Hhi : Qfloor q < Z.of_nat n).
  { rewrite Zlt_Qlt. eapply Qle_lt_trans; [apply Qfloor_le|].
    unfold q. rewrite <- (Qmult_1_l (inject_Z (Z.of_nat n))) at 2.
    by apply Qmult_lt_compat_r. }
  lia.
Qed.

Lemma random_choice_elem {X : Type} (u : Unit01) (arr : list X) :
  arr ≠ [] → ∃ a, random_choice u arr = Some a ∧ a ∈ arr.
Proof.
  intros Hne. unfold random_choice.
  destruct (lookup_lt_is_Some_2 arr
              (Z.to_nat (Qfloor (u_val u * inject_Z (Z.of_nat (length arr))))))
    as [a Ha].
  { apply random_index_lt. destruct arr; [done | simpl; lia]. }
  exists a. split; [done|]. by eapply list_elem_of_lookup_2.
Qed.

(** ** The two loops of [draw] *)

Lemma tears_loop_split (v : Variant) (hue : jsnum) (pre suf : list Tear.t)
    (out : list CanvasOp) :
  tears_loop v hue (length pre) (pre ++ suf) out =
  (ops ← mapM (Tear.display v hue) (reverse (Tear.update <$> pre));
   Some (filter alive (Tear.update <$> pre) ++ suf, out ++ mjoin ops)).
Proof.
  revert suf out. induction pre as [|p pre IH] using rev_ind; intros suf out.
  - simpl. by rewrite app_nil_r.
  - rewrite length_app, Nat.add_1_r. simpl tears_loop.
    rewrite <- app_assoc. simpl app.
    rewrite list_lookup_middle by done. simpl.
    rewrite fmap_app, reverse_app. simpl.
    destruct (Tear.display v hue (Tear.update p)) as [ops|]; [|done]. simpl.
    replace (<[length pre:=Tear.update p]> (pre ++ p :: suf))
      with (pre ++ Tear.update p :: suf).
    2:{ rewrite insert_app_r_alt by done. by rewrite Nat.sub_diag. }
    rewrite filter_app.
    destruct (Z.leb_spec (Tear.life p - 1) 0) as [Hdead|Hlive].
    + rewrite delete_middle. rewrite IH.
      destruct (mapM _ _) as [ops1|]; [|done]. simpl.
      rewrite filter_cons_False by (unfold alive; simpl; lia).
      rewrite filter_nil, app_nil_r, <- app_assoc. done.
    + rewrite IH.
      destruct (mapM _ _) as [ops1|]; [|done]. simpl.
      rewrite filter_cons_True by (unfold alive; simpl; lia).
      rewrite filter_nil, <- !app_assoc. done.
Qed.

Lemma tears_loop_spec (v : Variant) (hue : jsnum) (ts : list Tear.t) :
  tears_loop v hue (length ts) ts [] =
  (ops ← mapM (Tear.display v hue) (reverse (Tear.update <$> ts));
   Some (filter alive (Tear.update <$> ts), mjoin ops)).
Proof.
  rewrite <- (app_nil_r ts) at 2. rewrite tears_loop_split.
  by rewrite app_nil_r.
Qed.

Lemma collage_loop_spec (cs : list CollageImage.t) :
  collage_loop cs =
  (ops ← mapM CollageImage.display (CollageImage.update <$> cs);
   Some (CollageImage.update <$> cs, mjoin ops)).
Proof.
  induction cs as [|c cs IH]; [done|].
  simpl. destruct (CollageImage.display (CollageImage.update c)) as [o|]; [|done].
  simpl. rewrite IH. by destruct (mapM _ _).
Qed.

(** ** Well-formedness is an invariant *)

Lemma tear_update_life (p : Tear.t) :
  Tear.life (Tear.update p) = Tear.life p - 1.
Proof. reflexivity. Qed.

Lemma tear_ok_update (v : Variant) (p : Tear.t) :
  tear_ok v p → alive (Tear.update p) → tear_ok v (Tear.update p).
Proof.
  unfold tear_ok, alive. simpl. intros (Hi & Hl & Hs) Ha.
  split; [done|]. split; [lia | done].
Qed.

Lemma tear_ok_constructor (v : Variant) (env : Env) (x y : Q)
    (arr : list Image) :
  arr ≠ [] → Forall no_offset arr →
  tear_ok v (Tear.constructor v env x y (Some arr)).
Proof.
  intros Hne Hoff. unfold tear_ok. simpl.
  destruct (random_choice_elem (rnd env 3%nat) arr Hne) as (i & Hi & Hin).
  rewrite Hi. split.
  - exists i. split; [done|]. by eapply (proj1 (Forall_forall _ _)).
  - destruct v; simpl; lia.
Qed.

Lemma collage_ok_update (c : CollageImage.t) :
  collage_ok c → collage_ok (CollageImage.update c).
Proof.
  unfold collage_ok, CollageImage.update. intros (Hi & Ho & k & Hk).
  destruct (Z.ltb_spec (CollageImage.opacity c) 255); simpl.
  - repeat split; [done | lia | lia |]. exists (k + 1). lia.
  - repeat split; [done | lia | lia |]. by exists k.
Qed.

Lemma collage_ok_constructor (env : Env) (i : Image) :
  collage_ok (CollageImage.constructor env (Some i)).
Proof.
  unfold collage_ok. simpl. repeat split; [by eexists | lia | lia |].
  exists 0. lia.
Qed.

Lemma activeSet_wf (v : Variant) (s : State) :
  wf v s → ∃ arr, activeSet s = Some arr ∧ arr ≠ [] ∧ Forall no_offset arr.
Proof.
  intros [[r Hr] HA HB Hoff _ _ _ _]. unfold activeSet. rewrite Hr.
  apply Forall_app in Hoff as [HoA HoB].
  destruct r; eauto.
Qed.

Lemma wf_preload (v : Variant) (disk : string -> Q * Q) :
  wf v (preload v disk globals).
Proof.
  constructor; simpl.
  - by eexists.
  - done.
  - by destruct v.
  - destruct v; repeat constructor.
  - by destruct v.
  - constructor.
  - constructor.
  - done.
  - destruct v; auto.
Qed.

Lemma wf_emit (v : Variant) (env : Env) (s : State) :
  wf v s → wf v (emit v env s).
Proof.
  intros Hwf. unfold emit.
  destruct (isCrying s); [|done].
  destruct (rem_is_zero _ _); [|done].
  destruct (activeSet_wf v s Hwf) as (arr & Harr & Hne & Hoff).
  destruct Hwf. constructor; simpl; try done.
  apply Forall_app. split; [done|].
  apply Forall_singleton. rewrite Harr. by apply tear_ok_constructor.
Qed.

Lemma wf_throttle (env : Env) (s : State) : wf B s → wf B (throttle env s).
Proof.
  intros []. unfold throttle.
  destruct (negb _); constructor; simpl; auto.
Qed.

Lemma wf_toggleTearSet (v : Variant) (s : State) :
  wf v s → wf v (toggleTearSet s).
Proof.
  intros []. constructor; simpl; try done.
  destruct (decide _); by eexists.
Qed.

Lemma wf_createCollageImage (v : Variant) (env : Env) (s : State) :
  wf v s → wf v (createCollageImage env s).
Proof.
  intros []. constructor; simpl; try done.
  apply Forall_app. split; [done|]. apply Forall_singleton.
  destruct (random_choice_elem (rnd env 0%nat) (slideshowImages s))
    as (i & Hi & _); [done|].
  rewrite Hi. apply collage_ok_constructor.
Qed.

Lemma wf_startSlideshow (v : Variant) (env : Env) (s : State) :
  wf v s → wf v (startSlideshow env s).
Proof.
  intros Hwf. unfold startSlideshow.
  destruct (slideshowInterval s) eqn:Hi; [done|].
  pose proof (wf_createCollageImage v env s Hwf) as Hwf1.
  pose proof (wf_timers v s Hwf) as Ht. rewrite Hi in Ht.
  destruct Hwf1. constructor; simpl in *; try done.
  rewrite Ht. apply (right_id_L ∅ (∪)).
Qed.

Lemma wf_stopSlideshow (v : Variant) (s : State) :
  wf v s → wf v (stopSlideshow s).
Proof.
  intros Hwf. unfold stopSlideshow.
  destruct (slideshowInterval s) eqn:Hi; [|done].
  pose proof (wf_timers v s Hwf) as Ht. rewrite Hi in Ht.
  destruct Hwf. constructor; simpl; try done.
  rewrite Ht. apply difference_diag_L.
Qed.

Lemma wf_startCrying (v : Variant) (env : Env) (s : State) :
  wf v s → wf v (startCrying env s).
Proof.
  intros Hwf. unfold startCrying. destruct (negb _); [|done].
  by destruct Hwf.
Qed.

Lemma wf_stopCrying (v : Variant) (s : State) : wf v s → wf v (stopCrying s).
Proof.
  intros Hwf. unfold stopCrying. destruct (isCrying s); [|done].
  by destruct Hwf.
Qed.

Lemma wf_keyPressed (v : Variant) (env : Env) (s : State) :
  wf v s → wf v (keyPressed env s).
Proof.
  intros Hwf. unfold keyPressed.
  destruct (_ && _); [by apply wf_startCrying|].
  destruct (String.eqb (key env) "s").
  { destruct (slideshowInterval s);
      [by apply wf_stopSlideshow | by apply wf_startSlideshow]. }
  destruct (String.eqb (key env) "t"); [by apply wf_toggleTearSet | done].
Qed.

Lemma wf_keyReleased (v : Variant) (env : Env) (s : State) :
  wf v s → wf v (keyReleased env s).
Proof.
  intros Hwf. unfold keyReleased.
  destruct (_ && _); [by apply wf_stopCrying | done].
Qed.

(** A frame on a well-formed state raises nothing, and its result is the
    one of the two loops' characterisations. *)
Lemma draw_wf (v : Variant) (env : Env) (s : State) :
  wf v s →
  ∃ cops tops,
    mapM CollageImage.display (CollageImage.update <$> collageImages s)
      = Some cops ∧
    mapM (Tear.display v
            match v with A => getDurationBasedHue env s | B => NaN end)
         (reverse (Tear.update <$> tears (emit v env s)))
      = Some tops ∧
    draw v env s =
      Some (let s3 :=
              with_tears (filter alive (Tear.update <$> tears (emit v env s)))
                (with_collageImages (CollageImage.update <$> collageImages s)
                   (emit v env s)) in
            match v with A => s3 | B => throttle env s3 end,
            [Background 255] ++ mjoin cops ++ mjoin tops).
Proof.
  intros Hwf. pose proof (wf_emit v env s Hwf) as Hwf1.
  assert (Hc : collageImages (emit v env s) = collageImages s).
  { unfold emit. by repeat case_match. }
  assert (Hcry : isCrying (emit v env s) = isCrying s).
  { unfold emit. by repeat case_match. }
  assert (Hst : startTime (emit v env s) = startTime s).
  { unfold emit. by repeat case_match. }
  destruct (mapM CollageImage.display (CollageImage.update <$> collageImages s))
    as [cops|] eqn:Hcops.
  2:{ exfalso. apply eq_None_not_Some in Hcops. apply Hcops, mapM_is_Some.
      apply Forall_fmap. eapply Forall_impl; [apply (wf_collage v s Hwf)|].
      intros c Hok. apply collage_ok_update in Hok as ([i Hi] & _).
      simpl. unfold CollageImage.display. rewrite Hi. by eexists. }
  set (hue := match v with A => getDurationBasedHue env s | B => NaN end).
  destruct (mapM (Tear.display v hue)
              (reverse (Tear.update <$> tears (emit v env s))))
    as [tops|] eqn:Htops.
  2:{ exfalso. apply eq_None_not_Some in Htops. apply Htops, mapM_is_Some.
      apply Forall_reverse, Forall_fmap.
      eapply Forall_impl; [apply (wf_tears v _ Hwf1)|].
      intros p ((i & Hi & _) & _). simpl. unfold Tear.display. simpl.
      rewrite Hi. by eexists. }
  exists cops, tops. split; [done|]. split; [done|].
  unfold draw. rewrite collage_loop_spec, Hc, Hcops. simpl.
  replace (match v with
           | A => getDurationBasedHue env
                    (with_collageImages (CollageImage.update <$> collageImages s)
                       (emit v env s))
           | B => NaN
           end) with hue.
  2:{ unfold hue, getDurationBasedHue. simpl. by rewrite Hcry, Hst. }
  rewrite tears_loop_spec, Htops. simpl. done.
Qed.

Lemma wf_draw (v : Variant) (env : Env) (s s1 : State) (ops : list CanvasOp) :
  wf v s → draw v env s = Some (s1, ops) → wf v s1.
Proof.
  intros Hwf Hd.
  destruct (draw_wf v env s Hwf) as (cops & tops & _ & _ & Heq).
  rewrite Heq in Hd. injection Hd as <- _.
  pose proof (wf_emit v env s Hwf) as Hwf1.
  assert (Hc : collageImages (emit v env s) = collageImages s).
  { unfold emit. by repeat case_match. }
  assert (wf v (with_tears
                  (filter alive (Tear.update <$> tears (emit v env s)))
                  (with_collageImages
                     (CollageImage.update <$> collageImages s)
                     (emit v env s)))) as Hwf3.
  { destruct Hwf1. constructor; simpl; try done.
    - apply Forall_forall. intros p Hp.
      apply list_elem_of_filter in Hp as [Ha Hp].
      apply list_elem_of_fmap in Hp as (p0 & -> & Hp0).
      apply tear_ok_update; [|done].
      by eapply (proj1 (Forall_forall _ _)).
    - apply Forall_fmap. rewrite Hc in *.
      eapply Forall_impl; [done|]. intros c. apply collage_ok_update. }
  destruct v; [done | by apply wf_throttle].
Qed.

Lemma wf_handle (v : Variant) (env : Env) (e : Event) (s s1 : State) :
  wf v s → handle v env e s = Some s1 → wf v s1.
Proof.
  intros Hwf He. destruct e; simpl in He.
  - destruct (draw v env s) as [[s2 ops]|] eqn:Hd; [|done].
    injection He as <-. by eapply wf_draw.
  - injection He as <-. by apply wf_startCrying.
  - injection He as <-. by apply wf_stopCrying.
  - injection He as <-. by apply wf_startCrying.
  - injection He as <-. by apply wf_stopCrying.
  - injection He as <-. by apply wf_keyPressed.
  - injection He as <-. by apply wf_keyReleased.
  - destruct (decide _); [|done].
    injection He as <-. by apply wf_createCollageImage.
  - by injection He as <-.
Qed.

Lemma reachable_wf (v : Variant) (s : State) : reachable v s → wf v s.
Proof.
  induction 1 as [disk|s s1 env e _ IH He]; [apply wf_preload|].
  by eapply wf_handle.
Qed.

(** No callback raises in a run: every event the runtime can deliver has a
    next state. *)
Lemma handle_total (v : Variant) (env : Env) (e : Event) (s : State) :
  reachable v s →
  (∀ h, e = Interval h → h ∈ timers s) →
  is_Some (handle v env e s).
Proof.
  intros Hr Ht. apply reachable_wf in Hr.
  destruct e; simpl; try by eexists.
  - destruct (draw_wf v env s Hr) as (cops & tops & _ & _ & ->). by eexists.
  - rewrite decide_True by auto. by eexists.
Qed.

Lemma run_from_reachable (v : Variant) (evs : list (Env * Event))
    (s s1 : State) :
  reachable v s → run_from v evs s = Some s1 → reachable v s1.
Proof.
  revert s. induction evs as [|[env e] evs IH]; intros s Hr Hrun; simpl in Hrun.
  - by injection Hrun as <-.
  - destruct (handle v env e s) as [s2|] eqn:He; [|done].
    simpl in Hrun. eapply IH; [|done]. by eapply reach_event.
Qed.

Lemma run_reachable (v : Variant) (disk : string -> Q * Q)
    (evs : list (Env * Event)) (s : State) :
  run v disk evs = Some s → reachable v s.
Proof. apply run_from_reachable, reach_preload. Qed.

Lemma run_wf (v : Variant) (disk : string -> Q * Q)
    (evs : list (Env * Event)) (s : State) :
  run v disk evs = Some s → wf v s.
Proof. intros Hrun. by eapply reachable_wf, run_reachable. Qed.

(** ** Emission *)

Lemma emit_idle (v : Variant) (env : Env) (s : State) :
  isCrying s = false → emit v env s = s.
Proof. intros H. unfold emit. by rewrite H. Qed.

(** An idle frame appends no tear: the tears after it are the survivors of
    the tears before it. *)
Lemma draw_idle_no_new_tear (v : Variant) (env : Env) (s : State) :
  wf v s → isCrying s = false →
  ∃ s1 ops, draw v env s = Some (s1, ops) ∧
            tears s1 = filter alive (Tear.update <$> tears s).
Proof.
  intros Hwf Hidle.
  destruct (draw_wf v env s Hwf) as (cops & tops & _ & _ & Hd).
  rewrite (emit_idle v env s Hidle) in Hd.
  eexists _, _. split; [exact Hd|].
  destruct v; [done|]. unfold throttle. by destruct (negb _).
Qed.

(** Variant A with the divisor at 3: a tear is appended exactly on the frames
    whose counter is a multiple of 3; it sits at the pointer and holds an
    image of the active set. *)
Lemma emit_A_every_third_frame (env : Env) (s : State) :
  wf A s → isCrying s = true → emissionRate s = 3 →
  ((frameCount env mod 3 = 0) →
     ∃ p arr i, emit A env s = with_tears (tears s ++ [p]) s ∧
                Tear.x p = mouseX env ∧ Tear.y p = mouseY env ∧
                activeSet s = Some arr ∧ Tear.img p = Some i ∧ i ∈ arr) ∧
  ((frameCount env mod 3 ≠ 0) → emit A env s = s).
Proof.
  intros Hwf Hc Hr. unfold emit. rewrite Hc, Hr.
  unfold rem_is_zero, js_rem_int. simpl.
  destruct (activeSet_wf A s Hwf) as (arr & Harr & Hne & _).
  destruct (random_choice_elem (rnd env 3%nat) arr Hne) as (i & Hi & Hin).
  assert (Hrem : Z.rem (frameCount env) 3 = 0 ↔ frameCount env mod 3 = 0).
  { rewrite Z.rem_divide, Z.mod_divide by lia. done. }
  split; intros Hm.
  - apply Hrem in Hm. rewrite Hm. simpl.
    eexists _, arr, i. split; [done|]. rewrite Harr. simpl. by rewrite Hi.
  - destruct (Z.eqb_spec (Z.rem (frameCount env) 3) 0) as [H0|]; [|done].
    by apply Hrem in H0.
Qed.

(** The rate is at 3 in every state of variant A. *)
Lemma emissionRate_A (s : State) : reachable A s → emissionRate s = 3.
Proof. intros Hr. exact (wf_rate A s (reachable_wf A s Hr)). Qed.

(** C1.  Claim: while Idle no tear is appended; while Emitting with the
    divisor at 3 one tear is created on each frame whose counter is a
    multiple of 3, and none on the others.  Variant A does so
    ([draw_idle_no_new_tear], [emit_A_every_third_frame]).  Variant B does
    not: its spawn test is [frameCount % 10], not [frameCount % emissionRate].
    With the pointer down and [emissionRate] at 3, frame 3 creates no tear,
    and frame 10, which is no multiple of 3, creates one. *)
Theorem C1_variant_B_spawns_every_tenth_frame_at_rate_3 :
  isCrying (crying B) = true ∧
  emissionRate (crying B) = 3 ∧
  tears (crying B) = [] ∧
  tears <$> handle B (env_at 3 60 50 " ") Frame (crying B) = Some [] ∧
  (λ s, Tear.life <$> tears s)
    <$> handle B (env_at 10 60 166 " ") Frame (crying B) = Some [149].
Proof. repeat split; vm_compute; reflexivity. Qed.

(** ** The throttle of variant B *)

(** The divisor is set anew at the end of every frame of variant B. *)
Lemma draw_B_sets_emissionRate (env : Env) (s s1 : State)
    (ops : list CanvasOp) :
  draw B env s = Some (s1, ops) →
  emissionRate s1 = if Qle_bool 30 (frameRate env) then 3 else 20.
Proof.
  unfold draw. intros Hd.
  destruct (collage_loop _) as [[cs ops1]|]; [|done]. simpl in Hd.
  destruct (tears_loop _ _ _ _ _) as [[ts ops2]|]; [|done]. simpl in Hd.
  injection Hd as <- _. unfold throttle.
  by destruct (Qle_bool 30 (frameRate env)).
Qed.

(** C2.  Claim: in variant B the divisor is 20 below 30 frames per second and
    3 otherwise, set anew every frame, and a tear is spawned once every
    that-many frames.  The first half holds ([draw_B_sets_emissionRate]).
    The second does not: [draw] never reads [emissionRate].  After a frame
    at 20 frames per second the divisor is 20, and frame 10, which is no
    multiple of 20, spawns a tear all the same. *)
Theorem C2_variant_B_spawn_ignores_throttle :
  emissionRate <$> run B disk0 lagging_events = Some 20 ∧
  isCrying <$> run B disk0 lagging_events = Some true ∧
  tears <$> run B disk0 lagging_events = Some [] ∧
  (λ s, Tear.life <$> tears s)
    <$> run B disk0 (lagging_events ++ [(env_at 10 20 500 " ", Frame)])
    = Some [149].
Proof. repeat split; vm_compute; reflexivity. Qed.

(** ** The hue of variant A *)

Lemma getDurationBasedHue_idle (env : Env) (s : State) :
  isCrying s = false → getDurationBasedHue env s = Num 0.
Proof. intros H. unfold getDurationBasedHue. by rewrite H. Qed.

Lemma getDurationBasedHue_crying (env : Env) (s : State) :
  isCrying s = true →
  getDurationBasedHue env s =
  js_rem ((millis env - startTime s) / 1000 * 30) 360.
Proof. intros H. unfold getDurationBasedHue. by rewrite H. Qed.

(** No statement of the sketch assigns [randomOffset], so the sum in
    [display] has an [undefined] operand. *)
Lemma hueValue_no_offset (h : jsnum) (i : Image) :
  no_offset i → Tear.hueValue h i = NaN.
Proof.
  unfold no_offset, Tear.hueValue. intros ->. by destruct h.
Qed.

Lemma display_A_hue (h : jsnum) (p : Tear.t) (ops : list CanvasOp) :
  tear_ok A p → Tear.display A h p = Some ops → tint_hues ops = [NaN].
Proof.
  intros ((i & Hi & Hoff) & _). unfold Tear.display. rewrite Hi.
  intros [= <-]. simpl. by rewrite hueValue_no_offset.
Qed.

(** Every tint of a frame of variant A has the hue [NaN], in every state of
    a run. *)
Lemma draw_A_hues (env : Env) (s s1 : State) (ops : list CanvasOp) :
  reachable A s → draw A env s = Some (s1, ops) →
  Forall (λ h, h = NaN) (tint_hues ops).
Proof.
  intros Hr Hd. pose proof (reachable_wf A s Hr) as Hwf.
  destruct (draw_wf A env s Hwf) as (cops & tops & Hcops & Htops & Heq).
  rewrite Heq in Hd. injection Hd as _ <-.
  apply Forall_forall. intros h Hh.
  apply list_elem_of_omap in Hh as (op & Hop & Hsome).
  destruct op; try discriminate. injection Hsome as ->.
  apply elem_of_cons in Hop as [Hop|Hop]; [discriminate|].
  apply elem_of_app in Hop as [Hop|Hop].
  - apply list_elem_of_join in Hop as (o & Hin & Ho).
    apply list_elem_of_lookup in Ho as [k Hk].
    destruct (Forall2_lookup_r _ _ _ _ _ (mapM_Some_1 _ _ _ Hcops) Hk)
      as (c & _ & Hdisp).
    unfold CollageImage.display in Hdisp.
    destruct (CollageImage.img c); [|done]. injection Hdisp as <-.
    repeat (apply elem_of_cons in Hin as [Hin|Hin]; [discriminate|]).
    by apply elem_of_nil in Hin.
  - apply list_elem_of_join in Hop as (o & Hin & Ho).
    apply list_elem_of_lookup in Ho as [k Hk].
    destruct (Forall2_lookup_r _ _ _ _ _ (mapM_Some_1 _ _ _ Htops) Hk)
      as (p & Hp & Hdisp).
    apply list_elem_of_lookup_2, elem_of_reverse, list_elem_of_fmap in Hp
      as (p0 & -> & Hp0).
    pose proof (proj1 (Forall_forall _ _)
                  (wf_tears A _ (wf_emit A env s Hwf)) p0 Hp0)
      as ((i & Hi & Hoff) & _).
    unfold Tear.display in Hdisp. simpl in Hdisp. rewrite Hi in Hdisp.
    injection Hdisp as <-.
    repeat (apply elem_of_cons in Hin as [Hin|Hin];
            [try discriminate|]).
    + injection Hin as -> _ _ _. by apply hueValue_no_offset.
    + by apply elem_of_nil in Hin.
Qed.

(** C5.  Claim: in variant A the hue of a rendered tear is the duration-based
    hue plus the image's constant offset, modulo 360.  The duration-based hue
    is as claimed ([getDurationBasedHue_crying], [getDurationBasedHue_idle]),
    but [display] adds [this.img.randomOffset], which nothing ever sets: the
    sum is [NaN], for every tear of every frame ([draw_A_hues]).  One second
    after the pointer went down the duration-based hue is 30 and the tear
    drawn in that frame is tinted with hue [NaN]. *)
Theorem C5_variant_A_hue_is_NaN :
  (∃ q, getDurationBasedHue (env_at 3 60 1000 " ") (crying A) = Num q ∧
        (q == 30)%Q) ∧
  tint_hues ∘ snd <$> draw A (env_at 3 60 1000 " ") (crying A) = Some [NaN].
Proof.
  split; [|vm_compute; reflexivity].
  eexists. split; [vm_compute; reflexivity | reflexivity].
Qed.

(** ** The life of a tear *)

Lemma aged_S (k : nat) (p : Tear.t) : aged (S k) p = Tear.update (aged k p).
Proof. reflexivity. Qed.

Lemma aged_life (k : nat) (p : Tear.t) :
  Tear.life (aged k p) = Tear.life p - Z.of_nat k.
Proof.
  induction k as [|k IH]; [simpl; lia|].
  rewrite aged_S, tear_update_life, IH. lia.
Qed.

Lemma aged_lifespan (k : nat) (p : Tear.t) :
  Tear.lifespan (aged k p) = Tear.lifespan p.
Proof. induction k as [|k IH]; [done|]. by rewrite aged_S. Qed.

Lemma aged_img (k : nat) (p : Tear.t) : Tear.img (aged k p) = Tear.img p.
Proof. induction k as [|k IH]; [done|]. by rewrite aged_S. Qed.

Lemma display_is_Some (v : Variant) (hue : jsnum) (p : Tear.t) :
  is_Some (Tear.img p) → is_Some (Tear.display v hue p).
Proof. intros [i Hi]. unfold Tear.display. rewrite Hi. by eexists. Qed.

Lemma tear_frames_S (v : Variant) (hue : jsnum) (k : nat) (ts : list Tear.t) :
  tear_frames v hue (S k) ts =
  ('(ts1, ops) ← tears_loop v hue (length ts) ts [];
   '(ts2, log) ← tear_frames v hue k ts1;
   Some (ts2, ops :: log)).
Proof. reflexivity. Qed.

(** One more frame at the end of [k] frames. *)
Lemma tear_frames_snoc (v : Variant) (hue : jsnum) (k : nat)
    (ts : list Tear.t) :
  tear_frames v hue (S k) ts =
  ('(ts1, log) ← tear_frames v hue k ts;
   '(ts2, ops) ← tears_loop v hue (length ts1) ts1 [];
   Some (ts2, log ++ [ops])).
Proof.
  revert ts. induction k as [|k IH]; intros ts.
  - simpl. by destruct (tears_loop _ _ _ _ _) as [[ts1 ops]|].
  - rewrite (tear_frames_S v hue (S k)), (tear_frames_S v hue k ts).
    destruct (tears_loop v hue (length ts) ts []) as [[ts1 ops]|]; [|done].
    cbn -[tear_frames]. rewrite IH.
    destruct (tear_frames v hue k ts1) as [[ts2 log]|]; [|done].
    cbn -[tear_frames].
    by destruct (tears_loop v hue (length ts2) ts2 []) as [[ts3 ops3]|].
Qed.

(** The loop on a single tear. *)
Lemma tears_loop_single (v : Variant) (hue : jsnum) (p : Tear.t) :
  tears_loop v hue 1 [p] [] =
  (ops ← Tear.display v hue (Tear.update p);
   Some (if decide (alive (Tear.update p)) then [Tear.update p] else [], ops)).
Proof.
  simpl. destruct (Tear.display v hue (Tear.update p)) as [ops|]; [|done].
  simpl. unfold alive. simpl.
  destruct (Z.leb_spec (Tear.life p - 1) 0);
    destruct (decide (0 < Tear.life p - 1)); done || lia.
Qed.

(** While the tear is younger than its life it is the one element of the
    list, and frame [j] has drawn it at age [j + 1]. *)
Lemma tear_frames_young (v : Variant) (hue : jsnum) (p : Tear.t) (k : nat) :
  is_Some (Tear.img p) → Z.of_nat k < Tear.life p →
  ∃ log, tear_frames v hue k [p] = Some ([aged k p], log) ∧
         length log = k ∧
         ∀ j, (j < k)%nat → log !! j = Tear.display v hue (aged (S j) p).
Proof.
  intros Hi. induction k as [|k IH]; intros Hk.
  - exists []. split; [done|]. split; [done|]. intros j Hj. lia.
  - destruct IH as (log & Hrun & Hlen & Hlog); [lia|].
    rewrite tear_frames_snoc, Hrun. cbn -[tears_loop aged].
    change (length [aged k p]) with 1%nat. rewrite tears_loop_single.
    rewrite <- aged_S.
    destruct (display_is_Some v hue (aged (S k) p)) as [ops Hops].
    { by rewrite aged_img. }
    rewrite Hops. cbn -[aged].
    rewrite decide_True by (unfold alive; rewrite aged_life; lia).
    exists (log ++ [ops]). split; [done|]. split.
    { rewrite length_app. simpl. lia. }
    intros j Hj. destruct (decide (j = k)) as [->|Hne].
    + rewrite lookup_app_r by lia. rewrite Hlen, Nat.sub_diag. by simpl.
    + rewrite lookup_app_l by lia. apply Hlog. lia.
Qed.

(** The frame in which the life reaches 0 draws the tear and empties the
    list. *)
Lemma tear_frames_whole_life (v : Variant) (hue : jsnum) (p : Tear.t)
    (n : nat) :
  is_Some (Tear.img p) → Z.of_nat n = Tear.life p → (0 < n)%nat →
  ∃ log, tear_frames v hue n [p] = Some ([], log) ∧
         length log = n ∧
         ∀ j, (j < n)%nat → log !! j = Tear.display v hue (aged (S j) p).
Proof.
  intros Hi Hn Hpos. destruct n as [|k]; [lia|].
  destruct (tear_frames_young v hue p k Hi) as (log & Hrun & Hlen & Hlog);
    [lia|].
  rewrite tear_frames_snoc, Hrun. cbn -[tears_loop aged].
  change (length [aged k p]) with 1%nat. rewrite tears_loop_single.
  rewrite <- aged_S.
  destruct (display_is_Some v hue (aged (S k) p)) as [ops Hops].
  { by rewrite aged_img. }
  rewrite Hops. cbn -[aged].
  rewrite decide_False by (unfold alive; rewrite aged_life; lia).
  exists (log ++ [ops]). split; [done|]. split.
  { rewrite length_app. simpl. lia. }
  intros j Hj. destruct (decide (j = k)) as [->|Hne].
  - rewrite lookup_app_r by lia. rewrite Hlen, Nat.sub_diag. by simpl.
  - rewrite lookup_app_l by lia. apply Hlog. lia.
Qed.

(** ** Alpha and scale *)

Lemma inject_Z_nonzero (z : Z) : z ≠ 0 → ¬ (inject_Z z == 0)%Q.
Proof.
  intros Hz Heq. apply Hz. change 0%Q with (inject_Z 0) in Heq.
  exact (proj1 (inject_Z_injective z 0) Heq).
Qed.

(** C4.  For a tear of positive lifespan the alpha and the scale factor that
    [display] passes on are affine in the life: alpha is 255 / lifespan times
    the life, the scale factor is 0.9 / lifespan times the life plus 0.1.
    They are 0 and 0.1 at life 0, 255 and 1 at life = lifespan, and 127.5 and
    0.55 at life 150 of lifespan 300. *)
Theorem C4_alpha_and_scale_affine (v : Variant) (hue : jsnum) (p : Tear.t)
    (i : Image) :
  0 < Tear.lifespan p → Tear.img p = Some i →
  (Tear.alpha p ==
     255 / inject_Z (Tear.lifespan p) * inject_Z (Tear.life p))%Q ∧
  (Tear.scaleFactor p ==
     0.9 / inject_Z (Tear.lifespan p) * inject_Z (Tear.life p) + 0.1)%Q ∧
  (Tear.life p = 0 →
     (Tear.alpha p == 0)%Q ∧ (Tear.scaleFactor p == 0.1)%Q) ∧
  (Tear.life p = Tear.lifespan p →
     (Tear.alpha p == 255)%Q ∧ (Tear.scaleFactor p == 1)%Q) ∧
  (Tear.lifespan p = 300 → Tear.life p = 150 →
     (Tear.alpha p == 127.5)%Q ∧ (Tear.scaleFactor p == 0.55)%Q) ∧
  Tear.display v hue p =
    Some [Push; Translate (Tear.x p) (Tear.y p);
          match v with
          | A => Tint4 (Tear.hueValue hue i) 80 50 (Tear.alpha p)
          | B => Tint2 255 (Tear.alpha p)
          end;
          DrawImage i 0 0 (Tear.size p * Tear.scaleFactor p)
                          (Tear.size p * Tear.scaleFactor p);
          Pop].
Proof.
  intros Hpos Hi.
  assert (Hnz : ¬ (inject_Z (Tear.lifespan p) == 0)%Q)
    by (apply inject_Z_nonzero; lia).
  assert (Ha : (Tear.alpha p ==
                255 / inject_Z (Tear.lifespan p) * inject_Z (Tear.life p))%Q).
  { unfold Tear.alpha, map_range. field. exact Hnz. }
  assert (Hs : (Tear.scaleFactor p ==
                0.9 / inject_Z (Tear.lifespan p) * inject_Z (Tear.life p)
                + 0.1)%Q).
  { unfold Tear.scaleFactor, map_range. field. exact Hnz. }
  split; [done|]. split; [done|]. split; [|split; [|split]].
  - intros H0. rewrite Ha, Hs, H0. split; field; done.
  - intros Hfull. rewrite Ha, Hs, Hfull. split; field; done.
  - intros HL Hl. rewrite Ha, Hs, HL, Hl. split; reflexivity.
  - unfold Tear.display. by rewrite Hi.
Qed.

(** An instance: a tear of variant A after 150 frames. *)
Lemma C4_alpha_and_scale_affine_witness :
  (Tear.alpha
     (aged 150 (Tear.constructor A (env_at 3 60 50 " ") 40 70
                  (activeSet (crying A)))) == 127.5)%Q.
Proof.
  destruct (C4_alpha_and_scale_affine A NaN
              (aged 150 (Tear.constructor A (env_at 3 60 50 " ") 40 70
                           (activeSet (crying A))))
              (mkImage "tear2.png" 640 480 None))
    as (_ & _ & _ & _ & H & _); [reflexivity | reflexivity |].
  exact (proj1 (H eq_refl eq_refl)).
Defined.

(** ** The collage timer *)

Lemma timers_size (v : Variant) (s : State) : wf v s → (size (timers s) ≤ 1)%nat.
Proof.
  intros Hwf. rewrite (wf_timers v s Hwf).
  destruct (slideshowInterval s); [rewrite size_singleton | rewrite size_empty];
    lia.
Qed.

Lemma startSlideshow_running (env : Env) (s : State) :
  is_Some (slideshowInterval s) → startSlideshow env s = s.
Proof. intros [h Hh]. unfold startSlideshow. by rewrite Hh. Qed.

Lemma startSlideshow_is_running (env : Env) (s : State) :
  is_Some (slideshowInterval (startSlideshow env s)).
Proof.
  unfold startSlideshow. destruct (slideshowInterval s) eqn:Hh.
  - rewrite Hh. by eexists.
  - by eexists.
Qed.

(** C6.  In a state of a run, [stopSlideshow] on a running collage first
    cancels the timer, the collection being still whole at that point, then
    nulls the handle and empties the collection, whatever the opacities of
    its items: afterwards no timer is live, so no timer callback can follow;
    on a stopped collage it changes nothing. *)
Theorem C6_stopSlideshow_cancels_then_clears (v : Variant)
    (disk : string -> Q * Q) (evs : list (Env * Event)) (s : State) :
  run v disk evs = Some s →
  match slideshowInterval s with
  | Some h =>
      stopSlideshow s =
        with_collageImages []
          (with_slideshowInterval None (clearInterval h s)) ∧
      timers s = {[h]} ∧
      timers (clearInterval h s) = ∅ ∧
      collageImages (clearInterval h s) = collageImages s ∧
      slideshowInterval (stopSlideshow s) = None ∧
      collageImages (stopSlideshow s) = [] ∧
      timers (stopSlideshow s) = ∅ ∧
      (∀ env h1, handle v env (Interval h1) (stopSlideshow s) = None) ∧
      tears (stopSlideshow s) = tears s ∧
      isCrying (stopSlideshow s) = isCrying s ∧
      activeTearSet (stopSlideshow s) = activeTearSet s
  | None => stopSlideshow s = s
  end.
Proof.
  intros Hrun. pose proof (run_wf v disk evs s Hrun) as Hwf.
  pose proof (wf_timers v s Hwf) as Ht.
  unfold stopSlideshow.
  destruct (slideshowInterval s) as [h|] eqn:Hh; [|done].
  assert (Hempty : timers s ∖ {[h]} = (∅ : gset nat)).
  { rewrite Ht. apply difference_diag_L. }
  repeat split; simpl; try done.
  intros env h1. rewrite Hempty. by rewrite decide_False by set_solver.
Qed.

(** An instance: a running collage with two items, of opacity 15 and 10. *)
Lemma C6_stopSlideshow_cancels_then_clears_witness :
  run A disk0 collage_events = Some collage_state ∧
  CollageImage.opacity <$> collageImages collage_state = [15; 10] ∧
  slideshowInterval collage_state = Some 1%nat ∧
  collageImages (stopSlideshow collage_state) = [] ∧
  slideshowInterval (stopSlideshow collage_state) = None.
Proof.
  assert (Hrun : run A disk0 collage_events = Some collage_state)
    by (vm_compute; reflexivity).
  assert (Hh : slideshowInterval collage_state = Some 1%nat)
    by (vm_compute; reflexivity).
  split; [exact Hrun|]. split; [vm_compute; reflexivity|]. split; [exact Hh|].
  pose proof (C6_stopSlideshow_cancels_then_clears A disk0 collage_events
                collage_state Hrun) as H.
  rewrite Hh in H.
  destruct H as (_ & _ & _ & _ & Hnull & Hclear & _).
  split; [exact Hclear | exact Hnull].
Defined.

(** C7.  In a state of a run at most one timer is live, and it is the one
    [slideshowInterval] holds; [startSlideshow] on a running collage changes
    nothing, so it registers no second timer and appends no item, and two
    calls in a row give the state of one call. *)
Theorem C7_startSlideshow_no_second_timer (v : Variant)
    (disk : string -> Q * Q) (evs : list (Env * Event)) (s : State)
    (env env1 : Env) :
  run v disk evs = Some s →
  (is_Some (slideshowInterval s) → startSlideshow env s = s) ∧
  startSlideshow env1 (startSlideshow env s) = startSlideshow env s ∧
  (size (timers s) ≤ 1)%nat ∧
  timers s = match slideshowInterval s with
             | Some h => {[h]}
             | None => ∅
             end ∧
  size (timers (startSlideshow env s)) = 1%nat ∧
  size (timers (startSlideshow env1 (startSlideshow env s))) = 1%nat ∧
  (slideshowInterval s = None →
   length (collageImages (startSlideshow env1 (startSlideshow env s)))
   = S (length (collageImages s))).
Proof.
  intros Hrun. pose proof (run_wf v disk evs s Hrun) as Hwf.
  assert (Htwice : startSlideshow env1 (startSlideshow env s)
                   = startSlideshow env s).
  { apply startSlideshow_running, startSlideshow_is_running. }
  assert (Hone : size (timers (startSlideshow env s)) = 1%nat).
  { pose proof (wf_timers v _ (wf_startSlideshow v env s Hwf)) as Ht.
    destruct (startSlideshow_is_running env s) as [h Hh].
    rewrite Hh in Ht. rewrite Ht. apply size_singleton. }
  split; [apply startSlideshow_running|]. split; [done|].
  split; [by eapply timers_size|]. split; [apply (wf_timers v s Hwf)|].
  split; [done|]. split; [by rewrite Htwice|].
  intros Hnone. rewrite Htwice. unfold startSlideshow. rewrite Hnone.
  simpl. rewrite length_app. simpl. lia.
Qed.

(** An instance: the running collage of [collage_events]. *)
Lemma C7_startSlideshow_no_second_timer_witness :
  run A disk0 collage_events = Some collage_state ∧
  startSlideshow (env_at 4 60 3048 "s") collage_state = collage_state.
Proof.
  assert (Hrun : run A disk0 collage_events = Some collage_state)
    by (vm_compute; reflexivity).
  assert (Hh : slideshowInterval collage_state = Some 1%nat)
    by (vm_compute; reflexivity).
  split; [exact Hrun|].
  destruct (C7_startSlideshow_no_second_timer A disk0 collage_events
              collage_state (env_at 4 60 3048 "s") (env_at 4 60 3048 "s") Hrun)
    as [Hsame _].
  apply Hsame. exists 1%nat. exact Hh.
Defined.

(** ** Collage opacity *)

Lemma collage_update_step (c : CollageImage.t) :
  CollageImage.opacity c < 255 →
  CollageImage.opacity (CollageImage.update c) = CollageImage.opacity c + 5.
Proof.
  intros H. unfold CollageImage.update.
  by destruct (Z.ltb_spec (CollageImage.opacity c) 255); [|lia].
Qed.

Lemma collage_update_full (c : CollageImage.t) :
  255 ≤ CollageImage.opacity c → CollageImage.update c = c.
Proof.
  intros H. unfold CollageImage.update.
  by destruct (Z.ltb_spec (CollageImage.opacity c) 255); [lia|].
Qed.

Lemma collage_update_mono (c : CollageImage.t) :
  CollageImage.opacity c ≤ CollageImage.opacity (CollageImage.update c).
Proof.
  unfold CollageImage.update.
  destruct (Z.ltb_spec (CollageImage.opacity c) 255); simpl; lia.
Qed.

Lemma collage_display_tint (c : CollageImage.t) (ops : list CanvasOp)
    (g a : Q) :
  CollageImage.display c = Some ops → Tint2 g a ∈ ops →
  a = inject_Z (CollageImage.opacity c).
Proof.
  unfold CollageImage.display. destruct (CollageImage.img c); [|done].
  intros [= <-] Hin.
  repeat (apply elem_of_cons in Hin as [Heq|Hin]; [by inversion Heq|]).
  by apply elem_of_nil in Hin.
Qed.

(** C8.  A collage item starts at opacity 0; [update] adds exactly 5 while
    the opacity is below 255 and never lowers it; in every state of a run the
    opacity of every item is a multiple of 5 between 0 and 255, and every
    tint the collage loop of a frame passes to the surface has an opacity of
    at most 255. *)
Theorem C8_collage_opacity (v : Variant) (disk : string -> Q * Q)
    (evs : list (Env * Event)) (s : State) (env : Env) :
  run v disk evs = Some s →
  (∀ i, CollageImage.opacity (CollageImage.constructor env i) = 0) ∧
  (∃ c, collageImages (createCollageImage env s) = collageImages s ++ [c] ∧
        CollageImage.opacity c = 0) ∧
  (∀ c, CollageImage.opacity c < 255 →
        CollageImage.opacity (CollageImage.update c)
        = CollageImage.opacity c + 5) ∧
  (∀ c, CollageImage.opacity c ≤ CollageImage.opacity (CollageImage.update c)) ∧
  Forall (λ c, 0 ≤ CollageImage.opacity c ≤ 255 ∧ (5 | CollageImage.opacity c))
         (collageImages s) ∧
  ∃ cs ops,
    collage_loop (collageImages s) = Some (cs, ops) ∧
    cs = CollageImage.update <$> collageImages s ∧
    Forall (λ c, 0 ≤ CollageImage.opacity c ≤ 255) cs ∧
    ∀ g a, Tint2 g a ∈ ops → (a <= 255)%Q.
Proof.
  intros Hrun. pose proof (run_wf v disk evs s Hrun) as Hwf.
  split; [done|]. split; [by eexists|].
  split; [apply collage_update_step|]. split; [apply collage_update_mono|].
  split.
  { eapply Forall_impl; [apply (wf_collage v s Hwf)|]. by intros c (_ & ? & ?). }
  destruct (draw_wf v env s Hwf) as (cops & tops & Hcops & _ & _).
  rewrite collage_loop_spec, Hcops. simpl.
  assert (Hok : Forall collage_ok (CollageImage.update <$> collageImages s)).
  { apply Forall_fmap. eapply Forall_impl; [apply (wf_collage v s Hwf)|].
    intros c. apply collage_ok_update. }
  eexists _, _. split; [done|]. split; [done|]. split.
  { eapply Forall_impl; [exact Hok|]. by intros c (_ & ? & _). }
  intros g a Hin.
  apply list_elem_of_join in Hin as (ops & Hin & Hops).
  apply list_elem_of_lookup in Hops as [k Hk].
  pose proof (mapM_Some_1 _ _ _ Hcops) as Hall.
  destruct (Forall2_lookup_r _ _ _ _ _ Hall Hk) as (c & Hc & Hdisp).
  rewrite (collage_display_tint c ops g a Hdisp Hin).
  assert (collage_ok c) as (_ & Hrange & _).
  { eapply (proj1 (Forall_forall _ _)); [exact Hok|].
    by eapply list_elem_of_lookup_2. }
  change 255%Q with (inject_Z 255). rewrite <- Zle_Qle. lia.
Qed.

(** An instance: the collage of [collage_events], whose items are at opacity
    15 and 10. *)
Lemma C8_collage_opacity_witness :
  run A disk0 collage_events = Some collage_state ∧
  Forall (λ c, 0 ≤ CollageImage.opacity c ≤ 255 ∧ (5 | CollageImage.opacity c))
         (collageImages collage_state).
Proof.
  assert (Hrun : run A disk0 collage_events = Some collage_state)
    by (vm_compute; reflexivity).
  split; [exact Hrun|].
  destruct (C8_collage_opacity A disk0 collage_events collage_state
              (env_at 4 60 3048 "s") Hrun) as (_ & _ & _ & _ & Hall & _).
  exact Hall.
Defined.

(** ** The active image set *)

Lemma toggleTearSet_twice (s : State) :
  is_Some (activeTearSet s) → toggleTearSet (toggleTearSet s) = s.
Proof.
  intros [r Hr]. destruct s; simpl in *. subst.
  unfold toggleTearSet. simpl. by destruct r.
Qed.

(** C9.  In every state of a run, crying or not, two calls of
    [toggleTearSet] in a row give the state back, and so do two presses of
    the key t; one call does change the active set. *)
Theorem C9_toggleTearSet_twice (v : Variant) (disk : string -> Q * Q)
    (evs : list (Env * Event)) (s : State) (env : Env) :
  run v disk evs = Some s →
  toggleTearSet (toggleTearSet s) = s ∧
  activeTearSet (toggleTearSet (toggleTearSet s)) = activeTearSet s ∧
  activeSet (toggleTearSet (toggleTearSet s)) = activeSet s ∧
  activeTearSet (toggleTearSet s) ≠ activeTearSet s ∧
  isCrying (toggleTearSet s) = isCrying s ∧
  (key env = "t"%string → keyPressed env (keyPressed env s) = s).
Proof.
  intros Hrun. pose proof (run_wf v disk evs s Hrun) as Hwf.
  pose proof (wf_active v s Hwf) as Hact.
  pose proof (toggleTearSet_twice s Hact) as Htw.
  split; [done|]. split; [by rewrite Htw|]. split; [by rewrite Htw|].
  split.
  { destruct Hact as [r Hr]. unfold toggleTearSet. simpl. rewrite Hr.
    by destruct r. }
  split; [done|].
  intros Hk. unfold keyPressed. rewrite Hk. simpl. done.
Qed.

(** An instance: the pointer is down and set A is active. *)
Lemma C9_toggleTearSet_twice_witness :
  run A disk0 [(env_at 0 60 0 " ", MousePressed)] = Some (crying A) ∧
  toggleTearSet (toggleTearSet (crying A)) = crying A.
Proof.
  assert (Hrun : run A disk0 [(env_at 0 60 0 " ", MousePressed)]
                 = Some (crying A)) by reflexivity.
  split; [exact Hrun|].
  exact (proj1 (C9_toggleTearSet_twice A disk0 _ (crying A)
                  (env_at 1 60 16 "t") Hrun)).
Defined.

(** ** Starting and stopping emission *)

Lemma stopCrying_flag (s : State) :
  isCrying s = true → stopCrying s = with_isCrying false s.
Proof. intros H. unfold stopCrying. by rewrite H. Qed.

Lemma startCrying_again (env : Env) (s : State) :
  isCrying s = true → startCrying env s = s.
Proof. intros H. unfold startCrying. by rewrite H. Qed.

(** C10.  In a state of a run where emission is on, [stopCrying], and with
    it [mouseReleased], [touchEnded] and the release of the space key, turns
    the flag off and changes nothing else: the tears, the collage, the start
    time and the active set are as before, and the next frame updates the
    tears and drops the dead ones as it would have.  A request to start
    ([startCrying], [mousePressed], [touchStarted], a press of the space key)
    changes nothing at all, the start time included. *)
Theorem C10_stopCrying_changes_only_the_flag (v : Variant)
    (disk : string -> Q * Q) (evs : list (Env * Event)) (s : State)
    (env : Env) :
  run v disk evs = Some s → isCrying s = true →
  stopCrying s = with_isCrying false s ∧
  mouseReleased s = with_isCrying false s ∧
  touchEnded s = with_isCrying false s ∧
  (key env = " "%string → keyReleased env s = with_isCrying false s) ∧
  isCrying (stopCrying s) = false ∧
  tears (stopCrying s) = tears s ∧
  collageImages (stopCrying s) = collageImages s ∧
  startTime (stopCrying s) = startTime s ∧
  activeTearSet (stopCrying s) = activeTearSet s ∧
  emissionRate (stopCrying s) = emissionRate s ∧
  slideshowInterval (stopCrying s) = slideshowInterval s ∧
  timers (stopCrying s) = timers s ∧
  (∃ s1 ops, draw v env (stopCrying s) = Some (s1, ops) ∧
             tears s1 = filter alive (Tear.update <$> tears s)) ∧
  startCrying env s = s ∧
  mousePressed env s = s ∧
  touchStarted env s = s ∧
  (key env = " "%string → keyPressed env s = s).
Proof.
  intros Hrun Hc. pose proof (run_wf v disk evs s Hrun) as Hwf.
  pose proof (stopCrying_flag s Hc) as Hstop.
  pose proof (startCrying_again env s Hc) as Hstart.
  unfold mouseReleased, touchEnded, mousePressed, touchStarted.
  rewrite Hstop, Hstart.
  repeat split; try done.
  - intros Hk. unfold keyReleased. rewrite Hk, Hc. simpl. exact Hstop.
  - destruct (draw_idle_no_new_tear v env (with_isCrying false s))
      as (s1 & ops & Hd & Ht); [|done|by exists s1, ops].
    rewrite <- Hstop. by apply wf_stopCrying.
  - intros Hk. unfold keyPressed. rewrite Hk, Hc. simpl. done.
Qed.

(** An instance: the pointer is down in variant A. *)
Lemma C10_stopCrying_changes_only_the_flag_witness :
  run A disk0 [(env_at 0 60 0 " ", MousePressed)] = Some (crying A) ∧
  isCrying (crying A) = true ∧
  stopCrying (crying A) = with_isCrying false (crying A).
Proof.
  assert (Hrun : run A disk0 [(env_at 0 60 0 " ", MousePressed)]
                 = Some (crying A)) by reflexivity.
  split; [exact Hrun|]. split; [reflexivity|].
  exact (proj1 (C10_stopCrying_changes_only_the_flag A disk0 _ (crying A)
                  (env_at 1 60 16 " ") Hrun eq_refl)).
Defined.


(** * Further properties of the sketch *)

(** ** What the callbacks leave alone *)

Lemma emit_tears (v : Variant) (env : Env) (s : State) :
  tears (emit v env s) = tears s ∨
  tears (emit v env s) =
    tears s ++ [Tear.constructor v env (mouseX env) (mouseY env) (activeSet s)].
Proof. unfold emit. repeat case_match; auto. Qed.

Lemma emit_rest (v : Variant) (env : Env) (s : State) :
  collageImages (emit v env s) = collageImages s ∧
  isCrying (emit v env s) = isCrying s ∧
  startTime (emit v env s) = startTime s ∧
  emissionRate (emit v env s) = emissionRate s ∧
  tearImagesSetA (emit v env s) = tearImagesSetA s ∧
  tearImagesSetB (emit v env s) = tearImagesSetB s ∧
  slideshowImages (emit v env s) = slideshowImages s ∧
  activeTearSet (emit v env s) = activeTearSet s ∧
  slideshowInterval (emit v env s) = slideshowInterval s ∧
  timers (emit v env s) = timers s ∧
  next_timer (emit v env s) = next_timer s.
Proof. unfold emit. by repeat case_match. Qed.

(** The state a frame leaves, on a well-formed state. *)
Lemma draw_result (v : Variant) (env : Env) (s s1 : State)
    (ops : list CanvasOp) :
  wf v s → draw v env s = Some (s1, ops) →
  tears s1 = filter alive (Tear.update <$> tears (emit v env s)) ∧
  collageImages s1 = CollageImage.update <$> collageImages s ∧
  isCrying s1 = isCrying s ∧
  startTime s1 = startTime s ∧
  tearImagesSetA s1 = tearImagesSetA s ∧
  tearImagesSetB s1 = tearImagesSetB s ∧
  slideshowImages s1 = slideshowImages s ∧
  activeTearSet s1 = activeTearSet s ∧
  slideshowInterval s1 = slideshowInterval s ∧
  timers s1 = timers s ∧
  next_timer s1 = next_timer s.
Proof.
  intros Hwf Hd.
  destruct (draw_wf v env s Hwf) as (cops & tops & _ & _ & Heq).
  rewrite Heq in Hd. injection Hd as <- _.
  destruct (emit_rest v env s) as (? & ? & ? & ? & ? & ? & ? & ? & ? & ? & ?).
  destruct v; [by simpl|]. unfold throttle. by destruct (negb _); simpl.
Qed.

(** Every other callback leaves the tears and the three image arrays as they
    are, and either leaves the collage, empties it or appends one new item. *)
Lemma handler_result (v : Variant) (env : Env) (e : Event) (s s1 : State) :
  e ≠ Frame → handle v env e s = Some s1 →
  tears s1 = tears s ∧
  tearImagesSetA s1 = tearImagesSetA s ∧
  tearImagesSetB s1 = tearImagesSetB s ∧
  slideshowImages s1 = slideshowImages s ∧
  (collageImages s1 = collageImages s ∨
   collageImages s1 = [] ∨
   collageImages s1 =
     collageImages s ++
     [CollageImage.constructor env
        (random_choice (rnd env 0%nat) (slideshowImages s))]).
Proof.
  intros Hne He. destruct e; simpl in He; try done.
  all: unfold mousePressed, mouseReleased, touchStarted, touchEnded,
         keyPressed, keyReleased, windowResized, startCrying, stopCrying,
         startSlideshow, stopSlideshow, toggleTearSet, createCollageImage,
         setInterval in He.
  all: repeat case_match; simplify_eq; simpl; auto 10.
Qed.

(** ** The invariant of a run *)

Lemma sorted_filter {X : Type} (R : relation X) (P : X → Prop)
    `{!∀ x, Decision (P x)} (l : list X) :
  StronglySorted R l → StronglySorted R (filter P l).
Proof.
  induction 1 as [|x l Hl IH Hx]; [constructor|].
  rewrite filter_cons. destruct (decide (P x)); [|done].
  constructor; [done|]. apply Forall_forall. intros y Hy.
  apply list_elem_of_filter in Hy as [_ Hy].
  by eapply (proj1 (Forall_forall _ _)).
Qed.

Lemma sorted_update (ts : list Tear.t) :
  StronglySorted older ts → StronglySorted older (Tear.update <$> ts).
Proof.
  apply StronglySorted_fmap. unfold older. intros p q. simpl. lia.
Qed.

Lemma from_sets_update (s : State) (p : Tear.t) :
  from_sets s p → from_sets s (Tear.update p).
Proof. done. Qed.

Lemma from_slides_update (s : State) (c : CollageImage.t) :
  from_slides s c → from_slides s (CollageImage.update c).
Proof.
  unfold from_slides, CollageImage.update. by destruct (_ <? _).
Qed.

Lemma activeSet_cases (s : State) (arr : list Image) :
  activeSet s = Some arr → arr = tearImagesSetA s ∨ arr = tearImagesSetB s.
Proof.
  unfold activeSet. repeat case_match; intros [= <-]; auto.
Qed.

(** The tears after step 2: in order of age, with an image of the two sets
    and a life of at most the lifespan. *)
Lemma inv_emit_tears (v : Variant) (disk : string -> Q * Q) (env : Env)
    (s : State) :
  inv v disk s →
  Forall (from_sets s) (tears (emit v env s)) ∧
  StronglySorted older (tears (emit v env s)) ∧
  Forall (λ p, Tear.life p ≤ LIFESPAN v) (tears (emit v env s)).
Proof.
  intros Hinv.
  assert (Hle : Forall (λ p, Tear.life p ≤ LIFESPAN v) (tears s)).
  { eapply Forall_impl; [apply (inv_young v disk s Hinv)|]. simpl. lia. }
  destruct (emit_tears v env s) as [->| ->].
  { split; [apply (inv_tears_img v disk s Hinv)|].
    split; [apply (inv_sorted v disk s Hinv) | done]. }
  destruct (activeSet_wf v s (inv_wf v disk s Hinv)) as (arr & Harr & Hne & _).
  rewrite Harr.
  destruct (random_choice_elem (rnd env 3%nat) arr Hne) as (i & Hi & Hin).
  set (p := Tear.constructor v env (mouseX env) (mouseY env) (Some arr)).
  assert (Hlife : Tear.life p = LIFESPAN v) by (by destruct v).
  split; [|split].
  - apply Forall_app. split; [apply (inv_tears_img v disk s Hinv)|].
    apply Forall_singleton. exists i. split; [exact Hi|].
    destruct (activeSet_cases s arr Harr) as [-> | ->]; auto.
  - apply StronglySorted_app_2.
    + intros p1 p2 H1 H2. apply list_elem_of_singleton in H2 as ->.
      unfold older. rewrite Hlife.
      by apply (proj1 (Forall_forall _ _) (inv_young v disk s Hinv)).
    + apply (inv_sorted v disk s Hinv).
    + repeat constructor.
  - apply Forall_app. split; [done|]. apply Forall_singleton. lia.
Qed.

Lemma inv_preload (v : Variant) (disk : string -> Q * Q) :
  inv v disk (preload v disk globals).
Proof.
  constructor; simpl.
  - apply wf_preload.
  - done.
  - done.
  - done.
  - constructor.
  - constructor.
  - constructor.
  - constructor.
Qed.

Lemma inv_draw (v : Variant) (disk : string -> Q * Q) (env : Env)
    (s s1 : State) (ops : list CanvasOp) :
  inv v disk s → draw v env s = Some (s1, ops) → inv v disk s1.
Proof.
  intros Hinv Hd. pose proof (inv_wf v disk s Hinv) as Hwf.
  destruct (draw_result v env s s1 ops Hwf Hd)
    as (Ht & Hc & _ & _ & HA & HB & HS & _).
  destruct (inv_emit_tears v disk env s Hinv) as (Himg & Hsort & Hle).
  constructor.
  - by eapply wf_draw.
  - rewrite HA. apply (inv_setA v disk s Hinv).
  - rewrite HB. apply (inv_setB v disk s Hinv).
  - rewrite HS. apply (inv_slides v disk s Hinv).
  - rewrite Ht. apply Forall_forall. intros p Hp.
    apply list_elem_of_filter in Hp as [_ Hp].
    apply list_elem_of_fmap in Hp as (p0 & -> & Hp0).
    destruct (proj1 (Forall_forall _ _) Himg p0 Hp0) as (i & Hi & Hin).
    exists i. split; [done|]. by rewrite HA, HB.
  - rewrite Hc. apply Forall_fmap.
    eapply Forall_impl; [apply (inv_collage_img v disk s Hinv)|].
    intros c Hfrom. simpl.
    destruct (from_slides_update s c Hfrom) as (i & Hi & Hin).
    exists i. split; [done|]. by rewrite HS.
  - rewrite Ht. by apply sorted_filter, sorted_update.
  - rewrite Ht. apply Forall_forall. intros p Hp.
    apply list_elem_of_filter in Hp as [_ Hp].
    apply list_elem_of_fmap in Hp as (p0 & -> & Hp0).
    pose proof (proj1 (Forall_forall _ _) Hle p0 Hp0) as Hp0le.
    simpl in *. lia.
Qed.

Lemma inv_handle (v : Variant) (disk : string -> Q * Q) (env : Env)
    (e : Event) (s s1 : State) :
  inv v disk s → handle v env e s = Some s1 → inv v disk s1.
Proof.
  intros Hinv He.
  assert (e = Frame ∨ e ≠ Frame) as [->|Hne]
    by (destruct e; (by left) || (by right)).
  { simpl in He. destruct (draw v env s) as [[s2 ops]|] eqn:Hd; [|done].
    injection He as <-. by eapply inv_draw. }
  pose proof (inv_wf v disk s Hinv) as Hwf.
  destruct (handler_result v env e s s1 Hne He) as (Ht & HA & HB & HS & Hc).
  constructor.
  - by eapply wf_handle.
  - rewrite HA. apply (inv_setA v disk s Hinv).
  - rewrite HB. apply (inv_setB v disk s Hinv).
  - rewrite HS. apply (inv_slides v disk s Hinv).
  - rewrite Ht. eapply Forall_impl; [apply (inv_tears_img v disk s Hinv)|].
    intros p (i & Hi & Hin). exists i. split; [done|]. by rewrite HA, HB.
  - assert (Hold : Forall (from_slides s1) (collageImages s)).
    { eapply Forall_impl; [apply (inv_collage_img v disk s Hinv)|].
      intros c (i & Hi & Hin). exists i. split; [done|]. by rewrite HS. }
    destruct Hc as [-> | [-> | ->]]; [done | constructor |].
    apply Forall_app. split; [done|]. apply Forall_singleton.
    destruct (random_choice_elem (rnd env 0%nat) (slideshowImages s)
                (wf_slides v s Hwf)) as (i & Hi & Hin).
    exists i. simpl. split; [done|]. by rewrite HS.
  - rewrite Ht. apply (inv_sorted v disk s Hinv).
  - rewrite Ht. apply (inv_young v disk s Hinv).
Qed.

Lemma run_from_inv (v : Variant) (disk : string -> Q * Q)
    (evs : list (Env * Event)) (s s1 : State) :
  inv v disk s → run_from v evs s = Some s1 → inv v disk s1.
Proof.
  revert s. induction evs as [|[env e] evs IH]; intros s Hinv Hrun;
    simpl in Hrun.
  - by injection Hrun as <-.
  - destruct (handle v env e s) as [s2|] eqn:He; [|done].
    simpl in Hrun. eapply IH; [|done]. by eapply inv_handle.
Qed.

Lemma run_inv (v : Variant) (disk : string -> Q * Q)
    (evs : list (Env * Event)) (s : State) :
  run v disk evs = Some s → inv v disk s.
Proof. apply run_from_inv, inv_preload. Qed.

Lemma run_from_app (v : Variant) (evs1 evs2 : list (Env * Event)) (s : State) :
  run_from v (evs1 ++ evs2) s = run_from v evs1 s ≫= run_from v evs2.
Proof.
  revert s. induction evs1 as [|[env e] evs1 IH]; intros s; [done|].
  simpl. destruct (handle v env e s) as [s1|]; [|done]. simpl. apply IH.
Qed.

(** ** Frames never raise *)

(** X1.  In every state of a run a frame runs to its end: no tear and no
    collage item lacks its image, and the index loop never reads past the
    array.  The run extended by the frame is again a run. *)
Theorem frame_never_raises (v : Variant) (disk : string -> Q * Q)
    (evs : list (Env * Event)) (s : State) (env : Env) :
  run v disk evs = Some s →
  ∃ s1 ops, draw v env s = Some (s1, ops) ∧
            run v disk (evs ++ [(env, Frame)]) = Some s1.
Proof.
  intros Hrun.
  destruct (draw_wf v env s (run_wf v disk evs s Hrun))
    as (cops & tops & _ & _ & Hd).
  eexists _, _. split; [exact Hd|].
  unfold run in *. rewrite run_from_app, Hrun. simpl. by rewrite Hd.
Qed.

Lemma frame_never_raises_witness :
  run A disk0 tear_events = Some tear_state ∧
  ∃ s1 ops, draw A (env_at 4 60 66 " ") tear_state = Some (s1, ops) ∧
            run A disk0 (tear_events ++ [(env_at 4 60 66 " ", Frame)])
            = Some s1.
Proof.
  assert (Hrun : run A disk0 tear_events = Some tear_state)
    by (vm_compute; reflexivity).
  split; [exact Hrun|].
  exact (frame_never_raises A disk0 tear_events tear_state
           (env_at 4 60 66 " ") Hrun).
Defined.

(** ** The image arrays *)

(** X2.  After [preload] nothing writes the three image arrays: in every
    state of a run they hold the images of the configured files, in the
    order of the file lists, so the two tear sets have three images each and
    the slideshow has one (variant A) or six (variant B). *)
Theorem image_arrays_fixed (v : Variant) (disk : string -> Q * Q)
    (evs : list (Env * Event)) (s : State) :
  run v disk evs = Some s →
  tearImagesSetA s = loadImage disk <$> TEAR_FILENAMES_A v ∧
  tearImagesSetB s = loadImage disk <$> TEAR_FILENAMES_B v ∧
  slideshowImages s = loadImage disk <$> SLIDESHOW_FILENAMES v ∧
  length (tearImagesSetA s) = 3%nat ∧
  length (tearImagesSetB s) = 3%nat ∧
  length (slideshowImages s) = match v with A => 1%nat | B => 6%nat end.
Proof.
  intros Hrun. destruct (run_inv v disk evs s Hrun) as [_ HA HB HS _ _ _ _].
  rewrite HA, HB, HS. by destruct v.
Qed.

Lemma image_arrays_fixed_witness :
  run A disk0 collage_events = Some collage_state ∧
  file <$> slideshowImages collage_state = ["slide1.jpg"%string].
Proof.
  assert (Hrun : run A disk0 collage_events = Some collage_state)
    by (vm_compute; reflexivity).
  split; [exact Hrun|].
  destruct (image_arrays_fixed A disk0 collage_events collage_state Hrun)
    as (_ & _ & -> & _).
  reflexivity.
Defined.

Lemma loaded_file (disk : string -> Q * Q) (names : list string) (i : Image) :
  i ∈ loadImage disk <$> names → file i ∈ names.
Proof. intros Hin. by apply list_elem_of_fmap in Hin as (n & -> & Hn). Qed.

(** X3.  In every state of a run each tear holds an image of one of the two
    tear sets and each collage item an image of the slideshow, so only the
    configured files are ever drawn. *)
Theorem sprites_show_loaded_files (v : Variant) (disk : string -> Q * Q)
    (evs : list (Env * Event)) (s : State) :
  run v disk evs = Some s →
  Forall (λ p, ∃ i, Tear.img p = Some i ∧
                    (i ∈ tearImagesSetA s ∨ i ∈ tearImagesSetB s) ∧
                    file i ∈ TEAR_FILENAMES_A v ++ TEAR_FILENAMES_B v)
         (tears s) ∧
  Forall (λ c, ∃ i, CollageImage.img c = Some i ∧
                    i ∈ slideshowImages s ∧
                    file i ∈ SLIDESHOW_FILENAMES v)
         (collageImages s).
Proof.
  intros Hrun. destruct (run_inv v disk evs s Hrun) as [_ HA HB HS Ht Hc _ _].
  split.
  - eapply Forall_impl; [exact Ht|]. intros p (i & Hi & Hin).
    exists i. split; [done|]. split; [done|].
    rewrite HA, HB in Hin. apply elem_of_app.
    destruct Hin as [Hin|Hin]; [left | right]; by eapply loaded_file.
  - eapply Forall_impl; [exact Hc|]. intros c (i & Hi & Hin).
    exists i. split; [done|]. split; [done|].
    rewrite HS in Hin. by eapply loaded_file.
Qed.

Lemma sprites_show_loaded_files_witness :
  run A disk0 tear_events = Some tear_state ∧
  Forall (λ p, ∃ i, Tear.img p = Some i ∧
                    (i ∈ tearImagesSetA tear_state ∨
                     i ∈ tearImagesSetB tear_state) ∧
                    file i ∈ TEAR_FILENAMES_A A ++ TEAR_FILENAMES_B A)
         (tears tear_state).
Proof.
  assert (Hrun : run A disk0 tear_events = Some tear_state)
    by (vm_compute; reflexivity).
  split; [exact Hrun|].
  exact (proj1 (sprites_show_loaded_files A disk0 tear_events tear_state Hrun)).
Defined.

(** ** How many tears there can be *)

Lemma sorted_lives_length (ts : list Tear.t) (lo hi : Z) :
  StronglySorted older ts →
  Forall (λ p, lo ≤ Tear.life p ≤ hi) ts →
  Z.of_nat (length ts) ≤ Z.max 0 (hi - lo + 1).
Proof.
  intros Hs. revert lo. induction Hs as [|p ts Hs IH Hp]; intros lo Hall.
  - simpl. lia.
  - apply Forall_cons in Hall as [Hp0 Hall].
    assert (Hup : Forall (λ q, lo + 1 ≤ Tear.life q ≤ hi) ts).
    { apply Forall_forall. intros q Hq.
      pose proof (proj1 (Forall_forall _ _) Hp q Hq) as Hold.
      pose proof (proj1 (Forall_forall _ _) Hall q Hq) as Hq0.
      unfold older in Hold. cbv beta in *. lia. }
    specialize (IH (lo + 1) Hup). cbv beta in *. simpl length. lia.
Qed.

(** X4.  In every state of a run the tears stand in the array in order of
    age, the one with the least life left first, no two with the same life;
    hence there are never more than lifespan - 1 of them (299 in variant A,
    149 in variant B), however long the pointer is held. *)
Theorem tears_ordered_and_bounded (v : Variant) (disk : string -> Q * Q)
    (evs : list (Env * Event)) (s : State) :
  run v disk evs = Some s →
  StronglySorted older (tears s) ∧
  Forall (λ p, 1 ≤ Tear.life p ≤ LIFESPAN v - 1) (tears s) ∧
  Z.of_nat (length (tears s)) ≤ LIFESPAN v - 1.
Proof.
  intros Hrun.
  destruct (run_inv v disk evs s Hrun) as [Hwf _ _ _ _ _ Hsort Hyoung].
  assert (Hall : Forall (λ p, 1 ≤ Tear.life p ≤ LIFESPAN v - 1) (tears s)).
  { apply Forall_forall. intros p Hp.
    pose proof (proj1 (Forall_forall _ _) Hyoung p Hp) as Hy.
    pose proof (proj1 (Forall_forall _ _) (wf_tears v s Hwf) p Hp)
      as (_ & Hl & _).
    cbv beta in Hy. lia. }
  split; [done|]. split; [done|].
  pose proof (sorted_lives_length (tears s) 1 (LIFESPAN v - 1) Hsort Hall).
  destruct v; simpl in *; lia.
Qed.

Lemma tears_ordered_and_bounded_witness :
  run A disk0 tear_events = Some tear_state ∧
  Z.of_nat (length (tears tear_state)) ≤ LIFESPAN A - 1.
Proof.
  assert (Hrun : run A disk0 tear_events = Some tear_state)
    by (vm_compute; reflexivity).
  split; [exact Hrun|].
  exact (proj2 (proj2 (tears_ordered_and_bounded A disk0 tear_events
                         tear_state Hrun))).
Defined.


(** ** After the release *)

Lemma idle_frames (v : Variant) (disk : string -> Q * Q)
    (evs : list (Env * Event)) (s : State) (m : Z) :
  inv v disk s → isCrying s = false → only_frames evs →
  Forall (λ p, Tear.life p ≤ m) (tears s) →
  ∃ s2, run_from v evs s = Some s2 ∧ inv v disk s2 ∧ isCrying s2 = false ∧
        Forall (λ p, Tear.life p ≤ m - Z.of_nat (length evs)) (tears s2).
Proof.
  revert s m. induction evs as [|[env e] evs IH]; intros s m Hinv Hidle Hev Hm.
  - exists s. split; [done|]. split; [done|]. split; [done|].
    eapply Forall_impl; [exact Hm|]. intros p Hp. simpl in *. lia.
  - apply Forall_cons in Hev as [He Hev]. simpl in He. subst e.
    pose proof (inv_wf v disk s Hinv) as Hwf.
    destruct (draw_wf v env s Hwf) as (cops & tops & _ & _ & Hd0).
    destruct (draw v env s) as [[s1 ops]|] eqn:Hd; [clear Hd0|done].
    destruct (draw_result v env s s1 ops Hwf Hd) as (Ht & _ & Hc & _).
    simpl run_from. rewrite Hd. simpl.
    rewrite (emit_idle v env s Hidle) in Ht.
    destruct (IH s1 (m - 1)) as (s2 & Hrun & Hinv2 & Hidle2 & Hm2);
      [by eapply inv_draw | by rewrite Hc | exact Hev | |].
    { rewrite Ht. apply Forall_forall. intros p Hp.
      apply list_elem_of_filter in Hp as [_ Hp].
      apply list_elem_of_fmap in Hp as (p0 & -> & Hp0).
      pose proof (proj1 (Forall_forall _ _) Hm p0 Hp0). simpl in *. lia. }
    exists s2. split; [exact Hrun|]. split; [done|]. split; [done|].
    eapply Forall_impl; [exact Hm2|]. intros p Hp. simpl in *. lia.
Qed.

(** X5.  Once emission is off, lifespan - 1 frames (or more) with no other
    event in between leave no tear at all, whatever the frames read from the
    runtime; none of these frames raises. *)
Theorem tears_gone_after_release (v : Variant) (disk : string -> Q * Q)
    (evs evs2 : list (Env * Event)) (s : State) :
  run v disk evs = Some s → isCrying s = false → only_frames evs2 →
  LIFESPAN v - 1 ≤ Z.of_nat (length evs2) →
  ∃ s2, run_from v evs2 s = Some s2 ∧ tears s2 = [] ∧ isCrying s2 = false.
Proof.
  intros Hrun Hidle Hev Hlen.
  pose proof (run_inv v disk evs s Hrun) as Hinv.
  destruct (idle_frames v disk evs2 s (LIFESPAN v - 1) Hinv Hidle Hev)
    as (s2 & Hrun2 & Hinv2 & Hidle2 & Hm).
  { eapply Forall_impl; [apply (inv_young v disk s Hinv)|].
    intros p Hp. simpl in *. lia. }
  exists s2. split; [done|]. split; [|done].
  destruct (tears s2) as [|p ts] eqn:Hts; [done|]. exfalso.
  apply Forall_cons in Hm as [Hp _].
  pose proof (wf_tears v s2 (inv_wf v disk s2 Hinv2)) as Hok.
  rewrite Hts in Hok. apply Forall_cons in Hok as [(_ & Hl & _) _].
  simpl in *. lia.
Qed.

Lemma tears_gone_after_release_witness :
  run A disk0 released_events = Some released_state ∧
  Tear.life <$> tears released_state = [299] ∧
  ∃ s2, run_from A (replicate 299 (env_at 4 60 66 " ", Frame)) released_state
        = Some s2 ∧
        tears s2 = [] ∧ isCrying s2 = false.
Proof.
  assert (Hrun : run A disk0 released_events = Some released_state)
    by (vm_compute; reflexivity).
  split; [exact Hrun|]. split; [vm_compute; reflexivity|].
  apply (tears_gone_after_release A disk0 released_events
           (replicate 299 (env_at 4 60 66 " ", Frame)) released_state Hrun).
  - vm_compute. reflexivity.
  - apply Forall_replicate. reflexivity.
  - rewrite length_replicate. simpl. lia.
Defined.

(** ** Motion of a tear *)

Lemma aged_vx (k : nat) (p : Tear.t) : Tear.vx (aged k p) = Tear.vx p.
Proof. induction k as [|k IH]; [done|]. by rewrite aged_S. Qed.

Lemma aged_ay (k : nat) (p : Tear.t) : Tear.ay (aged k p) = Tear.ay p.
Proof. induction k as [|k IH]; [done|]. by rewrite aged_S. Qed.

Lemma inject_nat_S (k : nat) :
  (inject_Z (Z.of_nat (S k)) == inject_Z (Z.of_nat k) + 1)%Q.
Proof. rewrite Nat2Z.inj_succ. unfold Z.succ. by rewrite inject_Z_plus. Qed.

Lemma aged_vy (k : nat) (p : Tear.t) :
  (Tear.vy (aged k p) == Tear.vy p + inject_Z (Z.of_nat k) * Tear.ay p)%Q.
Proof.
  induction k as [|k IH]; [simpl; ring|].
  rewrite aged_S. unfold Tear.update at 1. cbn [Tear.vy].
  rewrite IH, aged_ay, inject_nat_S. ring.
Qed.

(** X6.  [update] is one step of constant acceleration: after [k] updates
    the horizontal velocity and the acceleration are unchanged, the vertical
    velocity has grown by k times the acceleration, and the position is
    x + k vx and y + k vy + ay k (k + 1) / 2 (the velocity is raised before
    the position moves). *)
Theorem tear_motion (p : Tear.t) (k : nat) :
  Tear.vx (aged k p) = Tear.vx p ∧
  Tear.ay (aged k p) = Tear.ay p ∧
  Tear.size (aged k p) = Tear.size p ∧
  (Tear.vy (aged k p) == Tear.vy p + inject_Z (Z.of_nat k) * Tear.ay p)%Q ∧
  (Tear.x (aged k p) == Tear.x p + inject_Z (Z.of_nat k) * Tear.vx p)%Q ∧
  (Tear.y (aged k p) ==
     Tear.y p + inject_Z (Z.of_nat k) * Tear.vy p
     + Tear.ay p * inject_Z (Z.of_nat k) * (inject_Z (Z.of_nat k) + 1) / 2)%Q.
Proof.
  split; [apply aged_vx|]. split; [apply aged_ay|].
  split; [induction k as [|k IH]; [done | by rewrite aged_S]|].
  split; [apply aged_vy|]. split.
  - induction k as [|k IH]; [simpl; ring|].
    rewrite aged_S. unfold Tear.update at 1. cbn [Tear.x].
    rewrite IH, aged_vx, inject_nat_S. ring.
  - induction k as [|k IH]; [simpl; field|].
    rewrite aged_S. unfold Tear.update at 1. cbn [Tear.y].
    rewrite IH, aged_vy, aged_ay, inject_nat_S. field.
Qed.

(** ** New sprites *)

Lemma random_range_bounds (u : Unit01) (lo hi : Q) :
  (lo <= hi)%Q →
  (lo <= random_range u lo hi)%Q ∧ (random_range u lo hi <= hi)%Q.
Proof.
  intros Hle. destruct (unit01_bounds u) as [H0 H1]. unfold random_range.
  rewrite (proj2 (Qle_bool_iff lo hi) Hle).
  assert (Hd : (0 <= hi - lo)%Q) by lra.
  assert (Hlo : (0 <= u_val u * (hi - lo))%Q)
    by (apply Qmult_le_0_compat; lra).
  assert (Hhi : (u_val u * (hi - lo) <= 1 * (hi - lo))%Q)
    by (apply Qmult_le_compat_r; lra).
  split; lra.
Qed.

(** X7.  A new tear sits where the caller says, with its life at the full
    lifespan (300 in variant A, 150 in variant B), a size between 160 and
    260, a sideways velocity between -1.5 and 1.5, an initial vertical
    velocity between -2 and 0 (upwards or none) and the downward
    acceleration 0.5.  The ranges are closed: rounding can bring a sample
    just below 1 up to the upper bound, never beyond. *)
Theorem new_tear_ranges (v : Variant) (env : Env) (x0 y0 : Q)
    (arr : option (list Image)) :
  let p := Tear.constructor v env x0 y0 arr in
  Tear.x p = x0 ∧ Tear.y p = y0 ∧
  Tear.life p = LIFESPAN v ∧ Tear.lifespan p = LIFESPAN v ∧
  (160 <= Tear.size p)%Q ∧ (Tear.size p <= 260)%Q ∧
  (-1.5 <= Tear.vx p)%Q ∧ (Tear.vx p <= 1.5)%Q ∧
  (-2 <= Tear.vy p)%Q ∧ (Tear.vy p <= 0)%Q ∧
  (Tear.ay p == 0.5)%Q.
Proof.
  simpl.
  destruct (random_range_bounds (rnd env 0%nat) 160 260) as [? ?]; [lra|].
  destruct (random_range_bounds (rnd env 1%nat) (-1.5) 1.5) as [? ?]; [lra|].
  destruct (random_range_bounds (rnd env 2%nat) (-2) 0) as [? ?]; [lra|].
  repeat split; try done; by destruct v.
Qed.

(** X8.  A new collage item holds the image it is given, is transparent
    and unrotated and has a scale between 0.6 and 1 (the range is closed:
    rounding can bring a sample just below 1 up to 1, never beyond). *)
Theorem new_collage_item_ranges (env : Env) (i : option Image) :
  let c := CollageImage.constructor env i in
  CollageImage.img c = i ∧
  CollageImage.opacity c = 0 ∧
  (CollageImage.rotation c == 0)%Q ∧
  (0.6 <= CollageImage.scale c)%Q ∧ (CollageImage.scale c <= 1)%Q.
Proof.
  simpl.
  destruct (random_range_bounds (rnd env 1%nat) 0.6 1.0) as [? ?]; [lra|].
  repeat split; try done; lra.
Qed.

(** ** The fade of a collage item *)

Lemma faded_S (k : nat) (c : CollageImage.t) :
  faded (S k) c = CollageImage.update (faded k c).
Proof. reflexivity. Qed.

Lemma collage_update_keeps (c : CollageImage.t) :
  CollageImage.img (CollageImage.update c) = CollageImage.img c ∧
  CollageImage.scale (CollageImage.update c) = CollageImage.scale c ∧
  CollageImage.x (CollageImage.update c) = CollageImage.x c ∧
  CollageImage.y (CollageImage.update c) = CollageImage.y c ∧
  CollageImage.rotation (CollageImage.update c) = CollageImage.rotation c.
Proof. unfold CollageImage.update. by destruct (_ <? _). Qed.

(** X9.  [k] updates after its creation a collage item has the opacity
    min(255, 5 k): it is fully opaque from the 51st update on and never
    overshoots; its image, scale, place and rotation never change. *)
Theorem collage_fade_in (env : Env) (i : option Image) (k : nat) :
  let c := CollageImage.constructor env i in
  CollageImage.opacity (faded k c) = Z.min 255 (5 * Z.of_nat k) ∧
  CollageImage.img (faded k c) = i ∧
  CollageImage.scale (faded k c) = CollageImage.scale c ∧
  CollageImage.x (faded k c) = CollageImage.x c ∧
  CollageImage.y (faded k c) = CollageImage.y c ∧
  CollageImage.rotation (faded k c) = CollageImage.rotation c.
Proof.
  cbv zeta. induction k as [|k (IHo & IHi & IHs & IHx & IHy & IHr)]; [done|].
  rewrite faded_S.
  destruct (collage_update_keeps (faded k (CollageImage.constructor env i)))
    as (-> & -> & -> & -> & ->).
  split; [|done].
  destruct (Z.lt_ge_cases
              (CollageImage.opacity (faded k (CollageImage.constructor env i)))
              255) as [Hlt|Hge].
  - rewrite collage_update_step by done. lia.
  - rewrite collage_update_full by done. lia.
Qed.

(** X10.  A frame neither adds, removes nor reorders collage items and
    changes nothing of an item but its opacity, which it never lowers. *)
Theorem frame_keeps_collage (v : Variant) (disk : string -> Q * Q)
    (evs : list (Env * Event)) (s : State) (env : Env) :
  run v disk evs = Some s →
  ∃ s1 ops,
    draw v env s = Some (s1, ops) ∧
    length (collageImages s1) = length (collageImages s) ∧
    Forall2 (λ c c1,
               CollageImage.img c1 = CollageImage.img c ∧
               CollageImage.scale c1 = CollageImage.scale c ∧
               CollageImage.x c1 = CollageImage.x c ∧
               CollageImage.y c1 = CollageImage.y c ∧
               CollageImage.rotation c1 = CollageImage.rotation c ∧
               CollageImage.opacity c ≤ CollageImage.opacity c1)
            (collageImages s) (collageImages s1).
Proof.
  intros Hrun. pose proof (run_wf v disk evs s Hrun) as Hwf.
  destruct (draw_wf v env s Hwf) as (cops & tops & _ & _ & Hd0).
  destruct (draw v env s) as [[s1 ops]|] eqn:Hd; [clear Hd0|done].
  destruct (draw_result v env s s1 ops Hwf Hd) as (_ & Hc & _).
  exists s1, ops. split; [done|]. rewrite Hc.
  split; [by rewrite length_fmap|].
  apply Forall2_fmap_r, Forall_Forall2_diag, Forall_forall. intros c _.
  destruct (collage_update_keeps c) as (? & ? & ? & ? & ?).
  repeat split; try done. apply collage_update_mono.
Qed.

Lemma frame_keeps_collage_witness :
  run A disk0 collage_events = Some collage_state ∧
  ∃ s1 ops,
    draw A (env_at 4 60 3048 "s") collage_state = Some (s1, ops) ∧
    length (collageImages s1) = length (collageImages collage_state).
Proof.
  assert (Hrun : run A disk0 collage_events = Some collage_state)
    by (vm_compute; reflexivity).
  split; [exact Hrun|].
  destruct (frame_keeps_collage A disk0 collage_events collage_state
              (env_at 4 60 3048 "s") Hrun) as (s1 & ops & Hd & Hlen & _).
  by exists s1, ops.
Defined.

(** ** The keyboard *)

Lemma stopped_empty_handle (v : Variant) (env : Env) (e : Event)
    (s s1 : State) :
  wf v s →
  (slideshowInterval s = None → collageImages s = []) →
  handle v env e s = Some s1 →
  slideshowInterval s1 = None → collageImages s1 = [].
Proof.
  intros Hwf Hs He Hnone.
  assert (e = Frame ∨ e ≠ Frame) as [->|Hne]
    by (destruct e; (by left) || (by right)).
  { simpl in He. destruct (draw v env s) as [[s2 ops]|] eqn:Hd; [|done].
    injection He as <-.
    destruct (draw_result v env s s2 ops Hwf Hd)
      as (_ & Hc & _ & _ & _ & _ & _ & _ & Hi & _).
    rewrite Hc, Hs; [done|]. by rewrite <- Hi. }
  pose proof (wf_timers v s Hwf) as Ht.
  destruct e; simpl in He; try done.
  all: unfold mousePressed, mouseReleased, touchStarted, touchEnded,
         keyPressed, keyReleased, windowResized, startCrying, stopCrying,
         startSlideshow, stopSlideshow, toggleTearSet, createCollageImage,
         setInterval in He.
  all: repeat case_match; simplify_eq; simpl in *; auto.
  all: try congruence.
  exfalso. apply (not_elem_of_empty (C:=gset nat) h). by rewrite <- Ht.
Qed.

Lemma stopped_collage_empty (v : Variant) (s : State) :
  reachable v s → slideshowInterval s = None → collageImages s = [].
Proof.
  induction 1 as [disk|s s1 env e Hr IH He]; [done|].
  eapply stopped_empty_handle; [by apply reachable_wf | done | done].
Qed.

(** X11.  In every state of a run the collage is empty while the spawner is
    stopped: items exist only between a start and the next stop. *)
Theorem collage_empty_while_stopped (v : Variant) (disk : string -> Q * Q)
    (evs : list (Env * Event)) (s : State) :
  run v disk evs = Some s →
  slideshowInterval s = None →
  collageImages s = [] ∧ timers s = ∅.
Proof.
  intros Hrun Hnone. split.
  - by eapply stopped_collage_empty, Hnone; eapply run_reachable.
  - rewrite (wf_timers v s (run_wf v disk evs s Hrun)). by rewrite Hnone.
Qed.

Lemma collage_empty_while_stopped_witness :
  run A disk0 tear_events = Some tear_state ∧
  collageImages tear_state = [].
Proof.
  assert (Hrun : run A disk0 tear_events = Some tear_state)
    by (vm_compute; reflexivity).
  split; [exact Hrun|].
  refine (proj1 (collage_empty_while_stopped A disk0 tear_events tear_state
                   Hrun _)).
  vm_compute. reflexivity.
Defined.

(** X12.  The key s switches the collage: on a stopped spawner it appends
    one transparent item and registers one timer, whose handle it keeps; on
    a running one it cancels the timer and empties the collage.  Either way
    the tears, the emission flag and the active set are untouched. *)
Theorem key_s_switches_collage (v : Variant) (disk : string -> Q * Q)
    (evs : list (Env * Event)) (s : State) (env : Env) :
  run v disk evs = Some s → key env = "s"%string →
  match slideshowInterval s with
  | None =>
      slideshowInterval (keyPressed env s) = Some (next_timer s) ∧
      timers (keyPressed env s) = {[next_timer s]} ∧
      ∃ c, collageImages (keyPressed env s) = [c] ∧
           CollageImage.opacity c = 0
  | Some h =>
      slideshowInterval (keyPressed env s) = None ∧
      timers (keyPressed env s) = ∅ ∧
      collageImages (keyPressed env s) = []
  end ∧
  tears (keyPressed env s) = tears s ∧
  isCrying (keyPressed env s) = isCrying s ∧
  startTime (keyPressed env s) = startTime s ∧
  activeTearSet (keyPressed env s) = activeTearSet s.
Proof.
  intros Hrun Hk. pose proof (run_wf v disk evs s Hrun) as Hwf.
  pose proof (wf_timers v s Hwf) as Ht.
  unfold keyPressed. rewrite Hk. simpl.
  destruct (slideshowInterval s) as [h|] eqn:Hh.
  - unfold stopSlideshow. rewrite Hh. simpl. repeat split; try done.
    rewrite Ht. apply difference_diag_L.
  - pose proof (stopped_collage_empty v s (run_reachable v disk evs s Hrun) Hh)
      as Hc.
    unfold startSlideshow. rewrite Hh. simpl. repeat split; try done.
    + rewrite Ht. apply (right_id_L ∅ (∪)).
    + rewrite Hc. by eexists.
Qed.

Lemma key_s_switches_collage_witness :
  run A disk0 collage_events = Some collage_state ∧
  collageImages (keyPressed (env_at 4 60 3048 "s") collage_state) = [].
Proof.
  assert (Hrun : run A disk0 collage_events = Some collage_state)
    by (vm_compute; reflexivity).
  assert (Hh : slideshowInterval collage_state = Some 1%nat)
    by (vm_compute; reflexivity).
  split; [exact Hrun|].
  pose proof (key_s_switches_collage A disk0 collage_events collage_state
                (env_at 4 60 3048 "s") Hrun eq_refl) as H.
  rewrite Hh in H. exact (proj2 (proj2 (proj1 H))).
Defined.

(** X13.  From the idle state, a press of the space key followed by its
    release leaves every global as it was except the recorded start time,
    which is the time of the press. *)
Theorem space_press_then_release (env env1 : Env) (s : State) :
  isCrying s = false → key env = " "%string → key env1 = " "%string →
  keyPressed env s = with_startTime (millis env) (with_isCrying true s) ∧
  keyReleased env1 (keyPressed env s) =
    with_isCrying false (with_startTime (millis env) (with_isCrying true s)) ∧
  isCrying (keyReleased env1 (keyPressed env s)) = false ∧
  startTime (keyReleased env1 (keyPressed env s)) = millis env ∧
  tears (keyReleased env1 (keyPressed env s)) = tears s ∧
  collageImages (keyReleased env1 (keyPressed env s)) = collageImages s ∧
  activeTearSet (keyReleased env1 (keyPressed env s)) = activeTearSet s ∧
  slideshowInterval (keyReleased env1 (keyPressed env s))
    = slideshowInterval s.
Proof.
  intros Hidle Hk Hk1.
  assert (Hp : keyPressed env s
               = with_startTime (millis env) (with_isCrying true s)).
  { unfold keyPressed, startCrying. by rewrite Hk, Hidle. }
  rewrite Hp. unfold keyReleased, stopCrying. rewrite Hk1. simpl. done.
Qed.

Lemma space_press_then_release_witness :
  startTime (keyReleased (env_at 9 60 150 " ")
               (keyPressed (env_at 1 60 16 " ") (preload A disk0 globals)))
  = 16%Q.
Proof.
  destruct (space_press_then_release (env_at 1 60 16 " ")
              (env_at 9 60 150 " ") (preload A disk0 globals))
    as (_ & _ & _ & Hst & _); [reflexivity | reflexivity | reflexivity |].
  exact Hst.
Defined.

(** X14.  Keys other than space, s and t change nothing, neither when
    pressed nor when released. *)
Theorem other_keys_ignored (env : Env) (s : State) :
  key env ≠ " "%string → key env ≠ "s"%string → key env ≠ "t"%string →
  keyPressed env s = s ∧ keyReleased env s = s.
Proof.
  intros H1 H2 H3. unfold keyPressed, keyReleased.
  apply String.eqb_neq in H1, H2, H3. by rewrite H1, H2, H3.
Qed.

Lemma other_keys_ignored_witness :
  keyPressed (env_at 5 60 80 "x") (crying A) = crying A.
Proof.
  destruct (other_keys_ignored (env_at 5 60 80 "x") (crying A))
    as [Hp _]; [discriminate | discriminate | discriminate |].
  exact Hp.
Defined.

(** ** The duration-based hue *)

Lemma Qfloor_unique (x : Q) (n : Z) :
  (inject_Z n <= x)%Q → (x < inject_Z (n + 1))%Q → Qfloor x = n.
Proof.
  intros Hlo Hhi.
  pose proof (Qfloor_le x) as Hfl. pose proof (Qlt_floor x) as Hfh.
  assert (n < Qfloor x + 1).
  { rewrite Zlt_Qlt. eapply Qle_lt_trans; [exact Hlo | exact Hfh]. }
  assert (Qfloor x < n + 1).
  { rewrite Zlt_Qlt. eapply Qle_lt_trans; [exact Hfl | exact Hhi]. }
  lia.
Qed.

Lemma Qtrunc_nonneg (x : Q) : (0 <= x)%Q → Qtrunc x = Qfloor x.
Proof.
  intros Hx. unfold Qtrunc. apply Qle_bool_iff in Hx. by rewrite Hx.
Qed.

(** The remainder of a non-negative number by 360. *)
Lemma js_rem_360 (a : Q) :
  (0 <= a)%Q →
  ∃ q, js_rem a 360 = Num q ∧ (0 <= q)%Q ∧ (q < 360)%Q ∧
       (q == a - 360 * inject_Z (Qfloor (a / 360)))%Q.
Proof.
  intros Ha. unfold js_rem. simpl Qeq_bool. cbv iota.
  assert (Hb : (0 <= a / 360)%Q) by (apply Qle_shift_div_l; lra).
  rewrite (Qtrunc_nonneg _ Hb).
  pose proof (Qfloor_le (a / 360)) as Hfl.
  pose proof (Qlt_floor (a / 360)) as Hfh.
  rewrite inject_Z_plus in Hfh.
  assert (Heq : (a == 360 * (a / 360))%Q) by (field; lra).
  eexists. split; [reflexivity|].
  set (b := (a / 360)%Q) in *. set (f := inject_Z (Qfloor b)) in *.
  change (inject_Z 1) with 1%Q in Hfh.
  split; [lra|]. split; [lra|]. reflexivity.
Qed.

(** X15.  As long as the clock has not gone back behind the recorded start,
    the duration-based hue is a number, never [NaN], in [0, 360), and it is
    0 while idle. *)
Theorem hue_in_range (env : Env) (s : State) :
  (startTime s <= millis env)%Q →
  ∃ q, getDurationBasedHue env s = Num q ∧ (0 <= q)%Q ∧ (q < 360)%Q ∧
       (isCrying s = false → q = 0%Q).
Proof.
  intros Ht. unfold getDurationBasedHue.
  destruct (isCrying s); simpl negb; cbv iota.
  - set (a := ((millis env - startTime s) / 1000 * 30)%Q).
    assert (Ha : (0 <= a)%Q).
    { unfold a. apply Qmult_le_0_compat; [|lra].
      apply Qle_shift_div_l; lra. }
    destruct (js_rem_360 a Ha) as (q & Hq & H0 & H360 & _).
    exists q. split; [exact Hq|]. split; [done|]. split; [done|]. done.
  - exists 0%Q. split; [done|]. split; [lra|]. split; [lra | done].
Qed.

Lemma hue_in_range_witness :
  ∃ q, getDurationBasedHue (env_at 3 60 13000 " ") (crying A) = Num q ∧
       (0 <= q)%Q ∧ (q < 360)%Q.
Proof.
  destruct (hue_in_range (env_at 3 60 13000 " ") (crying A))
    as (q & Hq & H0 & H360 & _); [vm_compute; discriminate|].
  by exists q.
Defined.

(** ** What a frame draws *)

Lemma map_range_bounds (n len lo hi : Q) :
  (0 <= n)%Q → (n < len)%Q → (lo < hi)%Q →
  (lo <= map_range n 0 len lo hi)%Q ∧ (map_range n 0 len lo hi < hi)%Q.
Proof.
  intros Hn Hlen Hlt. unfold map_range.
  assert (Hpos : (0 < len - 0)%Q) by lra.
  assert (H0 : (0 <= (n - 0) / (len - 0))%Q)
    by (apply Qle_shift_div_l; lra).
  assert (H1 : ((n - 0) / (len - 0) < 1)%Q)
    by (apply Qlt_shift_div_r; lra).
  set (t := ((n - 0) / (len - 0))%Q) in *.
  assert (Hlo : (0 <= t * (hi - lo))%Q) by (apply Qmult_le_0_compat; lra).
  assert (Hhi : (t * (hi - lo) < 1 * (hi - lo))%Q)
    by (apply Qmult_lt_compat_r; lra).
  split; lra.
Qed.

Lemma stack_depth_app (d : nat) (ops1 ops2 : list CanvasOp) :
  stack_depth d (ops1 ++ ops2) =
  stack_depth d ops1 ≫= λ d1, stack_depth d1 ops2.
Proof.
  revert d. induction ops1 as [|op ops1 IH]; intros d; [done|].
  destruct op; simpl; try apply IH. destruct d; [done | apply IH].
Qed.

Lemma stack_depth_join (d : nat) (opss : list (list CanvasOp)) :
  Forall (λ ops, ∀ d1, stack_depth d1 ops = Some d1) opss →
  stack_depth d (mjoin opss) = Some d.
Proof.
  induction 1 as [|ops opss Hops _ IH]; [done|].
  simpl. rewrite stack_depth_app, Hops. simpl. exact IH.
Qed.

Lemma tear_display_balanced (v : Variant) (hue : jsnum) (p : Tear.t)
    (ops : list CanvasOp) (d : nat) :
  Tear.display v hue p = Some ops → stack_depth d ops = Some d.
Proof.
  unfold Tear.display. destruct (Tear.img p); [|done].
  intros [= <-]. by destruct v.
Qed.

Lemma collage_display_balanced (c : CollageImage.t) (ops : list CanvasOp)
    (d : nat) :
  CollageImage.display c = Some ops → stack_depth d ops = Some d.
Proof.
  unfold CollageImage.display. destruct (CollageImage.img c); [|done].
  by intros [= <-].
Qed.

(** X18.  The calls a frame makes on the surface start with the clearing of
    the background and keep [push] and [pop] paired: no [pop] finds the
    stack empty and the stack is back at its depth when the frame ends, so
    no translation, rotation or tint leaks from one sprite or one frame
    into the next. *)
Theorem frame_push_pop_balanced (v : Variant) (disk : string -> Q * Q)
    (evs : list (Env * Event)) (s : State) (env : Env) :
  run v disk evs = Some s →
  ∃ s1 ops,
    draw v env s = Some (s1, ops) ∧
    head ops = Some (Background 255) ∧
    ∀ d, stack_depth d ops = Some d.
Proof.
  intros Hrun.
  destruct (draw_wf v env s (run_wf v disk evs s Hrun))
    as (cops & tops & Hcops & Htops & Hd).
  eexists _, _. split; [exact Hd|]. split; [done|].
  intros d. simpl. rewrite stack_depth_app.
  rewrite stack_depth_join; [simpl; apply stack_depth_join|].
  - apply Forall_forall. intros ops Hops d1.
    apply list_elem_of_lookup in Hops as [k Hk].
    destruct (Forall2_lookup_r _ _ _ _ _ (mapM_Some_1 _ _ _ Htops) Hk)
      as (p & _ & Hdisp).
    by eapply tear_display_balanced.
  - apply Forall_forall. intros ops Hops d1.
    apply list_elem_of_lookup in Hops as [k Hk].
    destruct (Forall2_lookup_r _ _ _ _ _ (mapM_Some_1 _ _ _ Hcops) Hk)
      as (c & _ & Hdisp).
    by eapply collage_display_balanced.
Qed.

Lemma frame_push_pop_balanced_witness :
  run A disk0 tear_events = Some tear_state ∧
  ∃ s1 ops,
    draw A (env_at 4 60 66 " ") tear_state = Some (s1, ops) ∧
    stack_depth 0 ops = Some 0%nat.
Proof.
  assert (Hrun : run A disk0 tear_events = Some tear_state)
    by (vm_compute; reflexivity).
  split; [exact Hrun|].
  destruct (frame_push_pop_balanced A disk0 tear_events tear_state
              (env_at 4 60 66 " ") Hrun) as (s1 & ops & Hd & _ & Hbal).
  exists s1, ops. split; [exact Hd | apply Hbal].
Defined.

(** ** When tears are spawned *)

Lemma rem_is_zero_mod (a b : Z) :
  0 < b → rem_is_zero a b = (a mod b =? 0).
Proof.
  intros Hb. unfold rem_is_zero, js_rem_int.
  destruct (Z.eqb_spec b 0) as [|_]; [lia|].
  destruct (Z.eqb_spec (Z.rem a b) 0) as [Hr|Hr];
    destruct (Z.eqb_spec (a mod b) 0) as [Hm|Hm]; try done.
  - apply Z.rem_divide in Hr; [|lia]. apply Z.mod_divide in Hr; [|lia]. done.
  - apply Z.mod_divide in Hm; [|lia]. apply Z.rem_divide in Hm; [|lia]. done.
Qed.

(** X19.  A frame appends at most one tear.  In a run of variant A it
    appends one exactly when emission is on and the frame counter is a
    multiple of 3; in a run of variant B exactly when emission is on and the
    frame counter is a multiple of 10, whatever [emissionRate] holds. *)
Theorem spawn_cadence (v : Variant) (disk : string -> Q * Q)
    (evs : list (Env * Event)) (s : State) (env : Env) :
  run v disk evs = Some s →
  spawned v env s =
    if isCrying s &&
       (frameCount env mod (match v with A => 3 | B => 10 end) =? 0)
    then 1%nat else 0%nat.
Proof.
  intros Hrun. pose proof (wf_rate v s (run_wf v disk evs s Hrun)) as Hrate.
  unfold spawned, emit. destruct (isCrying s); simpl; [|lia].
  assert (Hz : rem_is_zero (frameCount env)
                 match v with A => emissionRate s | B => 10 end
               = (frameCount env mod match v with A => 3 | B => 10 end =? 0)).
  { destruct v; [rewrite Hrate|]; by apply rem_is_zero_mod. }
  rewrite Hz. destruct (_ =? 0); simpl; [|lia].
  rewrite length_app. simpl. lia.
Qed.

Lemma spawn_cadence_witness :
  run B disk0 lagging_events
    = Some (default globals (run B disk0 lagging_events)) ∧
  emissionRate (default globals (run B disk0 lagging_events)) = 20 ∧
  spawned B (env_at 30 20 500 " ")
    (default globals (run B disk0 lagging_events)) = 1%nat.
Proof.
  assert (Hrun : run B disk0 lagging_events
                 = Some (default globals (run B disk0 lagging_events)))
    by (vm_compute; reflexivity).
  split; [exact Hrun|]. split; [vm_compute; reflexivity|].
  rewrite (spawn_cadence B disk0 lagging_events _ (env_at 30 20 500 " ") Hrun).
  vm_compute. reflexivity.
Defined.

(** ** Switching the tear set *)

(** X20.  One call of [toggleTearSet] in a state of a run makes the other of
    the two arrays the active one, which holds other images, and leaves the
    tears already emitted as they are, image included; a tear emitted after
    it holds an image of the newly active array. *)
Theorem toggle_switches_tear_set (v : Variant) (disk : string -> Q * Q)
    (evs : list (Env * Event)) (s : State) (env : Env) :
  run v disk evs = Some s →
  tears (toggleTearSet s) = tears s ∧
  (activeTearSet s = Some SetA →
   activeSet s = Some (tearImagesSetA s) ∧
   activeSet (toggleTearSet s) = Some (tearImagesSetB s)) ∧
  (activeTearSet s = Some SetB →
   activeSet s = Some (tearImagesSetB s) ∧
   activeSet (toggleTearSet s) = Some (tearImagesSetA s)) ∧
  activeSet (toggleTearSet s) ≠ activeSet s ∧
  (∀ p, tears (emit v env (toggleTearSet s)) = tears s ++ [p] →
        ∃ i arr, activeSet (toggleTearSet s) = Some arr ∧
                 Tear.img p = Some i ∧ i ∈ arr).
Proof.
  intros Hrun. destruct (run_inv v disk evs s Hrun) as [Hwf HA HB _ _ _ _ _].
  destruct (wf_active v s Hwf) as [r Hr].
  split; [done|].
  assert (Hdiff : tearImagesSetA s ≠ tearImagesSetB s).
  { rewrite HA, HB. by destruct v. }
  split; [|split; [|split]].
  - intros Ha. unfold activeSet, toggleTearSet. simpl. by rewrite Ha.
  - intros Hb. unfold activeSet, toggleTearSet. simpl. by rewrite Hb.
  - unfold activeSet, toggleTearSet. simpl. rewrite Hr.
    destruct r; simpl; congruence.
  - intros p Hp.
    pose proof (wf_toggleTearSet v s Hwf) as Hwf1.
    destruct (activeSet_wf v _ Hwf1) as (arr & Harr & Hne & _).
    destruct (random_choice_elem (rnd env 3%nat) arr Hne) as (i & Hi & Hin).
    exists i, arr. split; [done|]. split; [|done].
    destruct (emit_tears v env (toggleTearSet s)) as [He|He];
      rewrite He in Hp; simpl in Hp.
    + apply (f_equal length) in Hp. rewrite length_app in Hp. simpl in Hp. lia.
    + apply app_inj_tail in Hp as [_ <-]. rewrite Harr. simpl. done.
Qed.

Lemma toggle_switches_tear_set_witness :
  run A disk0 tear_events = Some tear_state ∧
  file <$> default [] (activeSet (toggleTearSet tear_state))
    = ["tear6.png"; "tear7.png"; "tear8.png"]%string.
Proof.
  assert (Hrun : run A disk0 tear_events = Some tear_state)
    by (vm_compute; reflexivity).
  split; [exact Hrun|].
  destruct (toggle_switches_tear_set A disk0 tear_events tear_state
              (env_at 6 60 100 " ") Hrun) as (_ & Ha & _).
  destruct Ha as [_ ->]; [vm_compute; reflexivity|].
  vm_compute. reflexivity.
Defined.

(** ** The calls of a frame, tear by tear *)

Lemma emit_fresh (v : Variant) (env : Env) (s : State) :
  ∃ fresh,
    tears (emit v env s) = tears s ++ fresh ∧
    (fresh = [] ∨
     (isCrying s = true ∧
      fresh = [Tear.constructor v env (mouseX env) (mouseY env)
                 (activeSet s)])).
Proof.
  unfold emit. destruct (isCrying s); [|exists []; by rewrite app_nil_r; auto].
  destruct (rem_is_zero _ _).
  - eexists. split; [reflexivity|]. by right.
  - exists []. rewrite app_nil_r. auto.
Qed.

(** Everything a frame of a run passes to the surface: the background, then
    for each collage item, in order, its six calls with the opacity after
    the update, then for each tear, the last of the array first, its five
    calls with the position, alpha and scale after the update; the tears
    left are those whose life after the update is positive. *)
Lemma frame_calls (v : Variant) (disk : string -> Q * Q)
    (evs : list (Env * Event)) (s : State) (env : Env) :
  run v disk evs = Some s →
  ∃ s1 fresh cops tops,
    (fresh = [] ∨
     (isCrying s = true ∧
      fresh = [Tear.constructor v env (mouseX env) (mouseY env)
                 (activeSet s)])) ∧
    draw v env s = Some (s1, [Background 255] ++ mjoin cops ++ mjoin tops) ∧
    Forall2
      (λ c ops, ∃ i,
         CollageImage.img c = Some i ∧
         ops = [Push;
                Translate (CollageImage.x c) (CollageImage.y c);
                Rotate (CollageImage.rotation c);
                Tint2 255 (inject_Z (CollageImage.opacity (CollageImage.update c)));
                DrawImage i 0 0 (width i * CollageImage.scale c)
                                (height i * CollageImage.scale c);
                Pop])
      (collageImages s) cops ∧
    Forall2
      (λ p ops, ∃ i,
         Tear.img p = Some i ∧
         ops = [Push;
                Translate (Tear.x (Tear.update p)) (Tear.y (Tear.update p));
                match v with
                | A => Tint4 (Tear.hueValue (getDurationBasedHue env s) i)
                         80 50 (Tear.alpha (Tear.update p))
                | B => Tint2 255 (Tear.alpha (Tear.update p))
                end;
                DrawImage i 0 0
                  (Tear.size p * Tear.scaleFactor (Tear.update p))
                  (Tear.size p * Tear.scaleFactor (Tear.update p));
                Pop])
      (reverse (tears s ++ fresh)) tops ∧
    tears s1 = filter alive (Tear.update <$> (tears s ++ fresh)) ∧
    tears (emit v env s) = tears s ++ fresh.
Proof.
  intros Hrun. pose proof (run_wf v disk evs s Hrun) as Hwf.
  destruct (draw_wf v env s Hwf) as (cops & tops & Hcops & Htops & Hd0).
  destruct (draw v env s) as [[s1 ops]|] eqn:Hd; [|done].
  destruct (draw_result v env s s1 ops Hwf Hd) as (Ht & _).
  destruct (emit_fresh v env s) as (fresh & Hem & Hfresh).
  rewrite Hem in Ht, Htops.
  injection Hd0 as _ ->.
  exists s1, fresh, cops, tops.
  split; [exact Hfresh|]. split; [done|].
  split; [|split; [|split; [exact Ht | exact Hem]]].
  - apply mapM_Some_1, Forall2_fmap_l in Hcops.
    eapply Forall2_impl; [exact Hcops|]. intros c o Hdisp. simpl in Hdisp.
    unfold CollageImage.display in Hdisp.
    destruct (collage_update_keeps c) as (Hi & Hs & Hx & Hy & Hr).
    rewrite Hi, Hs, Hx, Hy, Hr in Hdisp.
    destruct (CollageImage.img c) as [i|]; [|done].
    injection Hdisp as <-. by exists i.
  - apply mapM_Some_1 in Htops. rewrite <- fmap_reverse in Htops.
    apply Forall2_fmap_l in Htops.
    eapply Forall2_impl; [exact Htops|]. intros p o Hdisp. simpl in Hdisp.
    unfold Tear.display in Hdisp. simpl in Hdisp.
    destruct (Tear.img p) as [i|]; [|done].
    injection Hdisp as <-. exists i. split; [done|]. by destruct v.
Qed.


(** ** Following the tears of a state through later events *)






Lemma Forall2_with_left {X Y : Type} (P : X → Prop) (R : X → Y → Prop)
    (l : list X) (k : list Y) :
  Forall P l → Forall2 R l k → Forall2 (λ x y, P x ∧ R x y) l k.
Proof.
  intros HP HR. induction HR as [|x y l k Hxy _ IH]; [constructor|].
  apply Forall_cons in HP as [Hx HP]. constructor; [done | by apply IH].
Qed.



(** X17.  In every frame of a run the calls made for a tear carry its
    position after the update, an alpha in [0, 255) and a drawn size of its
    size times a factor in [0.1, 1); the calls before them are the
    background and those of the collage items.  So no tear is ever drawn at
    full opacity or full size, not even in the frame that creates it. *)
Theorem drawn_tears_below_full (v : Variant) (disk : string -> Q * Q)
    (evs : list (Env * Event)) (s : State) (env : Env) :
  run v disk evs = Some s →
  ∃ s1 fresh cops tops,
    (fresh = [] ∨
     (isCrying s = true ∧
      fresh = [Tear.constructor v env (mouseX env) (mouseY env)
                 (activeSet s)])) ∧
    draw v env s = Some (s1, [Background 255] ++ mjoin cops ++ mjoin tops) ∧
    Forall2
      (λ c ops, ∃ i,
         CollageImage.img c = Some i ∧
         ops = [Push;
                Translate (CollageImage.x c) (CollageImage.y c);
                Rotate (CollageImage.rotation c);
                Tint2 255
                  (inject_Z (CollageImage.opacity (CollageImage.update c)));
                DrawImage i 0 0 (width i * CollageImage.scale c)
                                (height i * CollageImage.scale c);
                Pop])
      (collageImages s) cops ∧
    Forall2
      (λ p ops, ∃ i a f,
         Tear.img p = Some i ∧
         ops = [Push;
                Translate (Tear.x p + Tear.vx p)
                          (Tear.y p + (Tear.vy p + Tear.ay p));
                match v with
                | A => Tint4 (Tear.hueValue (getDurationBasedHue env s) i)
                         80 50 a
                | B => Tint2 255 a
                end;
                DrawImage i 0 0 (Tear.size p * f) (Tear.size p * f);
                Pop] ∧
         (0 <= a)%Q ∧ (a < 255)%Q ∧ (0.1 <= f)%Q ∧ (f < 1)%Q)
      (reverse (tears s ++ fresh)) tops.
Proof.
  intros Hrun. pose proof (run_wf v disk evs s Hrun) as Hwf.
  destruct (frame_calls v disk evs s env Hrun)
    as (s1 & fresh & cops & tops & Hfresh & Hd & Hcops & Htops & _ & Hem).
  exists s1, fresh, cops, tops.
  split; [done|]. split; [done|]. split; [done|].
  pose proof (wf_tears v _ (wf_emit v env s Hwf)) as Hok.
  rewrite Hem in Hok. apply Forall_reverse in Hok.
  eapply Forall2_impl; [exact (Forall2_with_left _ _ _ _ Hok Htops)|].
  intros p ops ((_ & Hl & _) & i & Hi & ->).
  assert (Hn : (0 <= inject_Z (Tear.life (Tear.update p)))%Q).
  { change 0%Q with (inject_Z 0). rewrite <- Zle_Qle. simpl. lia. }
  assert (Hlen : (inject_Z (Tear.life (Tear.update p))
                  < inject_Z (Tear.lifespan (Tear.update p)))%Q).
  { rewrite <- Zlt_Qlt. simpl. lia. }
  destruct (map_range_bounds _ _ 0 255 Hn Hlen) as [? ?]; [lra|].
  destruct (map_range_bounds _ _ 0.1 1 Hn Hlen) as [? ?]; [lra|].
  exists i, (Tear.alpha (Tear.update p)), (Tear.scaleFactor (Tear.update p)).
  done.
Qed.

Lemma drawn_tears_below_full_witness :
  run A disk0 tear_events = Some tear_state ∧
  ∃ s1 ops, draw A (env_at 6 60 100 " ") tear_state = Some (s1, ops) ∧
            Tear.life <$> tears s1 = [298; 299].
Proof.
  assert (Hrun : run A disk0 tear_events = Some tear_state)
    by (vm_compute; reflexivity).
  split; [exact Hrun|].
  destruct (drawn_tears_below_full A disk0 tear_events tear_state
              (env_at 6 60 100 " ") Hrun)
    as (s1 & fresh & cops & tops & _ & Hd & _).
  exists s1, ([Background 255] ++ mjoin cops ++ mjoin tops).
  split; [exact Hd|].
  assert (Hlives : (λ r, Tear.life <$> tears r.1)
                     <$> draw A (env_at 6 60 100 " ") tear_state
                   = Some [298; 299]) by (vm_compute; reflexivity).
  rewrite Hd in Hlives. by injection Hlives.
Defined.
